(** * tsb-vermeer: procedure-name shortening for a BASIC listing

    A shallow embedding of [analyze_and_shorten.py]: the definition scanner
    [find_all_procedures], the call-site scanner [find_procedure_calls], the
    allocator [generate_short_names] and the rewriter
    [replace_procedures_and_calls], together with the fragment of Python's
    [re] module that their patterns use.

    Texts are lists of 8-bit code points (the Latin-1 range of a Python
    [str]); the character classes below follow CPython's tables on that
    range. *)

From Stdlib Require Import ZArith.
From Stdlib Require Import Ascii String List Bool Arith NArith Lia.
From Stdlib Require Import Permutation Sorted.
Import ListNotations.

Set Implicit Arguments.

(* ------------------------------------------------------------------ *)
(** ** Characters and strings *)

Definition str := list ascii.

(** A string literal as a [str]. *)
Definition txt (s : string) : str := list_ascii_of_string s.

Definition code (c : ascii) : N := N_of_ascii c.

Definition in_range (lo hi : N) (c : ascii) : bool :=
  ((lo <=? code c) && (code c <=? hi))%N.

(** [str.isspace] / [\s]: TAB..CR, FS..US, SPACE, NEL and NBSP. *)
Definition is_space (c : ascii) : bool :=
  in_range 9 13 c || in_range 28 32 c
  || (code c =? 133)%N || (code c =? 160)%N.

(** [\d]: the decimal digits. *)
Definition is_digit (c : ascii) : bool := in_range 48 57 c.

Definition is_upper_az (c : ascii) : bool := in_range 65 90 c.
Definition is_lower_az (c : ascii) : bool := in_range 97 122 c.

(** [\w]: alphanumeric code points and the underscore. *)
Definition is_word (c : ascii) : bool :=
  is_digit c || is_upper_az c || is_lower_az c || (code c =? 95)%N
  || (code c =? 170)%N || (code c =? 178)%N || (code c =? 179)%N
  || (code c =? 181)%N || (code c =? 185)%N || (code c =? 186)%N
  || in_range 188 190 c || in_range 192 214 c || in_range 216 246 c
  || in_range 248 255 c.

(** Simple lower-casing, as the matcher applies it under IGNORECASE. *)
Definition lower (c : ascii) : ascii :=
  if is_upper_az c || in_range 192 214 c || in_range 216 222 c
  then ascii_of_N (code c + 32) else c.

(** [str.upper] on one character.  The scanner applies it to a token of
    ASCII letters and digits only, where it maps a..z to A..Z. *)
Definition upper_char (c : ascii) : ascii :=
  if is_lower_az c then ascii_of_N (code c - 32) else c.

Definition upper (s : str) : str := map upper_char s.

(** Equality of two characters under IGNORECASE. *)
Definition ci_eqb (d c : ascii) : bool := Ascii.eqb (lower d) (lower c).

Definition str_eqb (a b : str) : bool :=
  if list_eq_dec ascii_dec a b then true else false.

Definition newline : ascii := "010"%char.
Definition NL : str := [newline].
Definition hash : ascii := "#"%char.

(** [s.split('\n')]: always at least one field. *)
Fixpoint split_lines (s : str) : list str :=
  match s with
  | [] => [[]]
  | c :: s' =>
      if Ascii.eqb c newline then [] :: split_lines s'
      else match split_lines s' with
           | [] => [[c]]
           | l :: ls => (c :: l) :: ls
           end
  end.

(** ['\n'.join(lines)]. *)
Fixpoint join_lines (ls : list str) : str :=
  match ls with
  | [] => []
  | [l] => l
  | l :: ls' => l ++ newline :: join_lines ls'
  end.

Fixpoint lstrip (s : str) : str :=
  match s with
  | c :: s' => if is_space c then lstrip s' else s
  | [] => []
  end.

Fixpoint rstrip (s : str) : str :=
  match s with
  | [] => []
  | c :: s' =>
      match rstrip s' with
      | [] => if is_space c then [] else [c]
      | r => c :: r
      end
  end.

(** [s.strip()]. *)
Definition strip (s : str) : str := rstrip (lstrip s).

(** [s.startswith('#')]. *)
Definition starts_with_hash (s : str) : bool :=
  match s with
  | c :: _ => Ascii.eqb c hash
  | [] => false
  end.

Definition nonempty (s : str) : bool :=
  match s with [] => false | _ => true end.

(** The filter shared by the call scanner and the rewriter:
    [stripped and not stripped.startswith('#')]. *)
Definition is_code_line (line : str) : bool :=
  nonempty (strip line) && negb (starts_with_hash (strip line)).

(* ------------------------------------------------------------------ *)
(** ** Dictionaries in insertion order *)

Section Dict.
Variable V : Type.

Definition dict := list (str * V).

Fixpoint dict_get (k : str) (d : dict) : option V :=
  match d with
  | [] => None
  | (k', v) :: d' => if str_eqb k k' then Some v else dict_get k d'
  end.

(** [d[k] = v]: an existing key keeps its position. *)
Fixpoint dict_set (k : str) (v : V) (d : dict) : dict :=
  match d with
  | [] => [(k, v)]
  | (k', v') :: d' =>
      if str_eqb k k' then (k', v) :: d' else (k', v') :: dict_set k v d'
  end.

Definition dict_keys (d : dict) : list str := map fst d.
End Dict.

(* ------------------------------------------------------------------ *)
(** ** The fragment of [re] used by the patterns *)

(** Every repetition in the source's patterns is over a one-character
    class, so [Star] and [Plus] take a class.  All patterns are compiled
    with IGNORECASE: a literal compares through [lower], and the classes
    [[A-Z]] and [[A-Z0-9]] are given with both cases. *)
Inductive regex : Type :=
| Eps
| Bol                               (* ^ *)
| Eol                               (* $ *)
| Wordb                             (* \b *)
| Lit (c : ascii)                   (* an escaped literal *)
| Cls (p : ascii -> bool)           (* a class: [..], \s, \d *)
| Star (p : ascii -> bool)          (* class*, greedy *)
| Plus (p : ascii -> bool)          (* class+, greedy *)
| Opt (r : regex)                   (* r?, greedy *)
| Cat (r1 r2 : regex)
| Alt (r1 r2 : regex)               (* r1|r2 *)
| Group (n : nat) (r : regex)       (* capturing group number n *)
| Ahead (r : regex).                (* (?=r) *)

Declare Scope re_scope.
Delimit Scope re_scope with re.
Bind Scope re_scope with regex.
Infix "·" := Cat (at level 40, left associativity) : re_scope.

(** A matcher state: the text before the cursor (nearest character
    first), the text after it, and the groups captured so far. *)
Record mstate : Type := MState {
  pre : str;
  suf : str;
  grp : list (nat * str)
}.

Definition advance (c : ascii) (rest : str) (st : mstate) : mstate :=
  MState (c :: pre st) rest (grp st).

Definition word_at (s : str) : bool :=
  match s with c :: _ => is_word c | [] => false end.

Fixpoint star_from (p : ascii -> bool) (pr sf : str) (g : list (nat * str))
  : list mstate :=
  match sf with
  | c :: sf' =>
      if p c then star_from p (c :: pr) sf' g ++ [MState pr sf g]
      else [MState pr sf g]
  | [] => [MState pr sf g]
  end.

Definition captured (st st' : mstate) : str :=
  firstn (length (suf st) - length (suf st')) (suf st).

(** All ways [r] matches at the cursor of [st], in the order in which a
    backtracking matcher tries them. *)
Fixpoint exec (r : regex) (st : mstate) : list mstate :=
  match r with
  | Eps => [st]
  | Bol => match pre st with [] => [st] | _ => [] end
  | Eol =>
      match suf st with
      | [] => [st]
      | [c] => if Ascii.eqb c newline then [st] else []
      | _ => []
      end
  | Wordb =>
      if xorb (word_at (pre st)) (word_at (suf st)) then [st] else []
  | Lit c =>
      match suf st with
      | d :: rest => if ci_eqb d c then [advance d rest st] else []
      | [] => []
      end
  | Cls p =>
      match suf st with
      | d :: rest => if p d then [advance d rest st] else []
      | [] => []
      end
  | Star p => star_from p (pre st) (suf st) (grp st)
  | Plus p =>
      match suf st with
      | d :: rest =>
          if p d then star_from p (d :: pre st) rest (grp st) else []
      | [] => []
      end
  | Opt r1 => exec r1 st ++ [st]
  | Cat r1 r2 => flat_map (exec r2) (exec r1 st)
  | Alt r1 r2 => exec r1 st ++ exec r2 st
  | Group n r1 =>
      map (fun st' => MState (pre st') (suf st')
                             ((n, captured st st') :: grp st'))
          (exec r1 st)
  | Ahead r1 =>
      match exec r1 st with [] => [] | _ :: _ => [st] end
  end.

(** [m.group(n)]. *)
Fixpoint group_of (n : nat) (g : list (nat * str)) : option str :=
  match g with
  | [] => None
  | (k, s) :: g' => if Nat.eqb n k then Some s else group_of n g'
  end.

Definition group (n : nat) (m : mstate) : option str := group_of n (grp m).

(** [re.match(r, s)]. *)
Definition re_match (r : regex) (s : str) : option mstate :=
  hd_error (exec r (MState [] s [])).

(** [re.search(r, s)] as a truth value. *)
Fixpoint search_from (r : regex) (pr sf : str) : bool :=
  match exec r (MState pr sf []) with
  | _ :: _ => true
  | [] =>
      match sf with
      | [] => false
      | c :: sf' => search_from r (c :: pr) sf'
      end
  end.

Definition re_search (r : regex) (s : str) : bool := search_from r [] s.

(** The length of the first match at the cursor; with [must_advance] an
    empty match is passed over. *)
Definition first_len (r : regex) (pr sf : str) (must_advance : bool)
  : option nat :=
  let lens := map (fun st' => length sf - length (suf st'))
                  (exec r (MState pr sf [])) in
  hd_error (if must_advance then filter (fun n => negb (Nat.eqb n 0)) lens
            else lens).

(** The replacement of [re.sub] is a template.  A backslash in it opens
    an escape or a group reference, which [re.sub] expands, or refuses
    with [re.error] before it searches; a template without a backslash
    is written out as it stands. *)
Definition backslash : ascii := "092"%char.

Definition plain_template (repl : str) : bool :=
  negb (existsb (Ascii.eqb backslash) repl).

(** [re.sub(r, repl, s)] for a plain template [repl], and for no other:
    [repl] is written out as it stands and nothing is raised.  The short
    names of the allocator are prefixes of procedure names and are plain;
    what is proved of the substitution for a mapping that is given from
    outside assumes its short names plain.  [skip] counts the characters
    of a match still to be dropped.  After an empty match the next match
    at the same cursor must be non-empty. *)
Fixpoint sub_scan (r : regex) (repl pr sf : str) (skip : nat) : str :=
  match skip with
  | S k =>
      match sf with
      | [] => []
      | c :: sf' => sub_scan r repl (c :: pr) sf' k
      end
  | O =>
      let resume (found : option nat) : str :=
        match found with
        | Some (S k) =>
            repl ++ match sf with
                    | [] => []
                    | c :: sf' => sub_scan r repl (c :: pr) sf' k
                    end
        | _ =>
            match sf with
            | [] => []
            | c :: sf' => c :: sub_scan r repl (c :: pr) sf' 0
            end
        end in
      match first_len r pr sf false with
      | Some O => repl ++ resume (first_len r pr sf true)
      | found => resume found
      end
  end.

Definition re_sub (r : regex) (repl s : str) : str := sub_scan r repl [] s 0.

(** [re.escape(s)]: the characters of [s], each taken literally. *)
Fixpoint lit (s : str) : regex :=
  match s with
  | [] => Eps
  | c :: s' => (Lit c · lit s')%re
  end.

(* ------------------------------------------------------------------ *)
(** ** The patterns of [analyze_and_shorten.py] *)

(** [[A-Z]] under IGNORECASE. *)
Definition is_letter (c : ascii) : bool := is_upper_az c || is_lower_az c.

(** [[A-Z0-9]] under IGNORECASE. *)
Definition is_alnum (c : ascii) : bool := is_letter c || is_digit c.

(** [[:$\s]]: inside a class the dollar sign is an ordinary character. *)
Definition is_sep (c : ascii) : bool :=
  Ascii.eqb c ":"%char || Ascii.eqb c "$"%char || is_space c.

Definition PROC : str := txt "PROC".

(** [^\s*(\d+\s+)?PROC\s+] *)
Definition def_head : regex :=
  (Bol · Star is_space · Opt (Group 1 (Plus is_digit · Plus is_space))
   · lit PROC · Plus is_space)%re.

(** [\s*$] *)
Definition def_tail : regex := (Star is_space · Eol)%re.

(** [^\s*(\d+\s+)?PROC\s+( [A-Z][A-Z0-9]* )\s*$], group 2 spaced out here *)
Definition def_re : regex :=
  (def_head · Group 2 (Cls is_letter · Star is_alnum) · def_tail)%re.

(** [^\s*(\d+\s+)?PROC\s+] + re.escape(name) + [\s*$] *)
Definition def_name_re (name : str) : regex :=
  (def_head · lit name · def_tail)%re.

(** [\b] + re.escape(name) + [\b(?=\s*[:$\s]|$)] *)
Definition call_re (name : str) : regex :=
  (Wordb · lit name · Wordb
   · Ahead (Alt (Star is_space · Cls is_sep) Eol))%re.

(** [^(\s*\d*\s*PROC\s+)] + re.escape(old_name) + [( \s* )$] *)
Definition proc_re (old_name : str) : regex :=
  (Bol
   · Group 1 (Star is_space · Star is_digit · Star is_space
              · lit PROC · Plus is_space)
   · lit old_name · Group 2 (Star is_space) · Eol)%re.

(** [\b] + re.escape(old_name) + [\b] *)
Definition word_re (old_name : str) : regex :=
  (Wordb · lit old_name · Wordb)%re.

(* ------------------------------------------------------------------ *)
(** ** Definition scanner *)

Definition enumerate (A : Type) (l : list A) : list (nat * A) :=
  combine (seq 0 (length l)) l.

(** The name a line declares: [match.group(2).upper()] when the pattern
    matches [line.strip()]. *)
Definition scan_line (line : str) : option str :=
  match re_match def_re (strip line) with
  | Some m =>
      match group 2 m with
      | Some g => Some (upper g)
      | None => None
      end
  | None => None
  end.

(** [if name not in d: d[name] = []] followed by [d[name].append(i)]. *)
Definition dict_append (name : str) (i : nat) (d : dict (list nat))
  : dict (list nat) :=
  match dict_get name d with
  | Some l => dict_set name (l ++ [i]) d
  | None => dict_set name [i] d
  end.

Definition scan_step (d : dict (list nat)) (il : nat * str)
  : dict (list nat) :=
  match scan_line (snd il) with
  | Some name => dict_append name (fst il) d
  | None => d
  end.

Definition find_all_procedures (content : str) : dict (list nat) :=
  fold_left scan_step (enumerate (split_lines content)) [].

(* ------------------------------------------------------------------ *)
(** ** Call-site scanner *)

Definition is_some (A : Type) (o : option A) : bool :=
  match o with Some _ => true | None => false end.

(** The test of the inner loop for one line and one name. *)
Definition is_call_line (name line : str) : bool :=
  is_code_line line
  && re_search (call_re name) line
  && negb (is_some (re_match (def_name_re name) (strip line))).

(** The indices appended to [calls[name]], in line order. *)
Definition call_lines (lines : list str) (name : str) : list nat :=
  map fst (filter (fun il => is_call_line name (snd il)) (enumerate lines)).

(** [proc_names] is a set; the list gives the order in which it is
    iterated. *)
Definition find_procedure_calls (content : str) (proc_names : list str)
  : dict (list nat) :=
  fold_left
    (fun calls name => dict_set name (call_lines (split_lines content) name)
                                calls)
    proc_names [].

(* ------------------------------------------------------------------ *)
(** ** Short-name allocator *)

Fixpoint str_ltb (a b : str) : bool :=
  match a, b with
  | _, [] => false
  | [], _ :: _ => true
  | x :: a', y :: b' =>
      (code x <? code y)%N || ((code x =? code y)%N && str_ltb a' b')
  end.

(** [(len(x), x) < (len(y), y)] *)
Definition key_ltb (x y : str) : bool :=
  (length x <? length y) || ((length x =? length y) && str_ltb x y).

Fixpoint insert_sorted (x : str) (l : list str) : list str :=
  match l with
  | [] => [x]
  | y :: l' => if key_ltb x y then x :: l else y :: insert_sorted x l'
  end.

(** [sorted(proc_names, key=lambda x: (len(x), x))]: a stable sort. *)
Definition sorted_procs (proc_names : list str) : list str :=
  fold_left (fun acc x => insert_sorted x acc) proc_names [].

Definition mem (s : str) (used : list str) : bool :=
  existsb (str_eqb s) used.

(** The prefix loop: the first [proc_name[:length]] for [length] in
    [range(1, len(proc_name) + 1)] that is not in [used_names]; [None]
    when the loop ends without [break]. *)
Definition first_free (proc_name : str) (used_names : list str)
  : option str :=
  find (fun candidate => negb (mem candidate used_names))
       (map (fun n => firstn n proc_name) (seq 1 (length proc_name))).

Record alloc : Type := Alloc {
  short_names : dict str;
  used_names : list str
}.

Definition assign (a : alloc) (proc_name : str) : alloc :=
  match first_free proc_name (used_names a) with
  | Some candidate =>
      Alloc (dict_set proc_name candidate (short_names a))
            (candidate :: used_names a)
  | None =>
      (* the [else] of the loop: use the full name *)
      Alloc (dict_set proc_name proc_name (short_names a))
            (proc_name :: used_names a)
  end.

Definition alloc_run (names : list str) : alloc :=
  fold_left assign names (Alloc [] []).

Definition generate_short_names (proc_names : list str) : dict str :=
  short_names (alloc_run (sorted_procs proc_names)).

(* ------------------------------------------------------------------ *)
(** ** Rewriter *)

Definition group_text (n : nat) (m : mstate) : str :=
  match group n m with Some s => s | None => [] end.

(** One pass of the inner loop.  The patterns and the comment test read
    the original [line]; the substitution works on [lines[i]], here
    [cur]. *)
Definition rewrite_step (line cur : str) (entry : str * str) : str :=
  let (old_name, new_name) := entry in
  match re_match (proc_re old_name) line with
  | Some m => group_text 1 m ++ new_name ++ group_text 2 m
  | None =>
      if negb (starts_with_hash (strip line)) && nonempty (strip line)
      then re_sub (word_re old_name) new_name cur
      else cur
  end.

Definition rewrite_line (name_mapping : dict str) (line : str) : str :=
  fold_left (rewrite_step line) name_mapping line.

Definition rewrite_lines (name_mapping : dict str) (lines : list str)
  : list str :=
  map (rewrite_line name_mapping) lines.

Definition replace_procedures_and_calls (content : str)
  (name_mapping : dict str) : str :=
  join_lines (rewrite_lines name_mapping (split_lines content)).

(** The mappings on which the substitutions of the rewriter are given a
    plain template: no short name holds a backslash. *)
Definition plain_replacements (name_mapping : dict str) : bool :=
  forallb (fun entry => plain_template (snd entry)) name_mapping.

(** The text written by [analyze_and_shorten_procedures]. *)
Definition shorten (content : str) : str :=
  let procedures := find_all_procedures content in
  let name_mapping := generate_short_names (dict_keys procedures) in
  replace_procedures_and_calls content name_mapping.

(* ------------------------------------------------------------------ *)
(** ** The statistics of [analyze_and_shorten_procedures] *)

(** One pass of the savings loop.  [procedures[old_name]] and
    [calls[old_name]] raise KeyError on a missing key: [None]. *)
Definition savings_step (procedures calls : dict (list nat))
  (total : option Z) (entry : str * str) : option Z :=
  let (old_name, new_name) := entry in
  match total, dict_get old_name procedures, dict_get old_name calls with
  | Some total_savings, Some defs, Some cs =>
      let char_diff :=
        (Z.of_nat (length old_name) - Z.of_nat (length new_name))%Z in
      let total_occurrences := Z.of_nat (length defs + length cs) in
      Some (total_savings + char_diff * total_occurrences)%Z
  | _, _, _ => None
  end.

Definition total_savings (procedures calls : dict (list nat))
  (name_mapping : dict str) : option Z :=
  fold_left (savings_step procedures calls) name_mapping (Some 0%Z).

(** What [analyze_and_shorten_procedures] computes from the text it
    read: the two indices, the mapping, the total it prints and the text
    it writes. *)
Record analysis : Type := Analysis {
  an_procedures : dict (list nat);
  an_calls : dict (list nat);
  an_mapping : dict str;
  an_savings : Z;
  an_output : str
}.

Definition analyze (content : str) : option analysis :=
  let procedures := find_all_procedures content in
  let proc_names := dict_keys procedures in
  let calls := find_procedure_calls content proc_names in
  let name_mapping := generate_short_names proc_names in
  match total_savings procedures calls name_mapping with
  | Some savings =>
      Some (Analysis procedures calls name_mapping savings
                     (replace_procedures_and_calls content name_mapping))
  | None => None
  end.

(* ------------------------------------------------------------------ *)
(** ** [find_strings.py] *)

(** [re.findall(r, s)] for a pattern with one group: the text of group 1
    of every match, from left to right; a group that took no part gives
    the empty string.  The scan is that of [re.sub]. *)
Definition first_result (r : regex) (pr sf : str) (must_advance : bool)
  : option mstate :=
  let results := exec r (MState pr sf []) in
  hd_error (if must_advance
            then filter (fun st' => negb (Nat.eqb (length sf - length (suf st')) 0))
                        results
            else results).

Definition match_len (sf : str) (m : mstate) : nat :=
  length sf - length (suf m).

Fixpoint findall_scan (r : regex) (pr sf : str) (skip : nat) : list str :=
  match skip with
  | S k =>
      match sf with
      | [] => []
      | c :: sf' => findall_scan r (c :: pr) sf' k
      end
  | O =>
      let resume (found : option mstate) : list str :=
        match found with
        | Some m =>
            match match_len sf m with
            | S k =>
                group_text 1 m
                :: match sf with
                   | [] => []
                   | c :: sf' => findall_scan r (c :: pr) sf' k
                   end
            | O =>
                match sf with
                | [] => []
                | c :: sf' => findall_scan r (c :: pr) sf' 0
                end
            end
        | None =>
            match sf with
            | [] => []
            | c :: sf' => findall_scan r (c :: pr) sf' 0
            end
        end in
      match first_result r pr sf false with
      | Some m =>
          match match_len sf m with
          | O => group_text 1 m :: resume (first_result r pr sf true)
          | S _ => resume (Some m)
          end
      | None => resume None
      end
  end.

Definition re_findall (r : regex) (s : str) : list str :=
  findall_scan r [] s 0.

Definition quote : ascii := "034"%char.
Definition is_quote (c : ascii) : bool := Ascii.eqb c quote.
Definition not_quote (c : ascii) : bool := negb (is_quote c).

(** The pattern of [lese_prg_strings]: a quote, group 1 of any characters
    but quotes, a quote.  It is compiled without flags. *)
Definition string_re : regex :=
  (Cls is_quote · Group 1 (Star not_quote) · Cls is_quote)%re.

(** [32 <= b <= 126] *)
Definition printable (b : Byte.byte) : bool :=
  ((32 <=? Byte.to_N b) && (Byte.to_N b <=? 126))%N.

(** [chr(b) if 32 <= b <= 126 else '\n'] *)
Definition decode_byte (b : Byte.byte) : ascii :=
  if printable b then ascii_of_byte b else newline.

(** The text in which the strings are looked for: the bytes after the
    two-byte load address. *)
Definition prg_text (daten : list Byte.byte) : str :=
  map decode_byte (skipn 2 daten).

(** [lese_prg_strings], from the bytes read. *)
Definition lese_prg_strings (daten : list Byte.byte) : list str :=
  re_findall string_re (prg_text daten).

(** [mapping[elem] = mapping.get(elem, 0) + 1] *)
Definition count_element (zaehler : dict nat) (s : str) : dict nat :=
  dict_set s (match dict_get s zaehler with Some n => n | None => 0 end + 1)
           zaehler.

(** [Counter(strings)]: keys in the order of first occurrence. *)
Definition Counter (strings : list str) : dict nat :=
  fold_left count_element strings [].

Fixpoint insert_by_count (x : str * nat) (l : list (str * nat))
  : list (str * nat) :=
  match l with
  | [] => [x]
  | y :: l' => if snd x <? snd y then y :: insert_by_count x l' else x :: l
  end.

(** [zaehler.most_common()]: a stable sort by falling count. *)
Definition most_common (zaehler : dict nat) : list (str * nat) :=
  fold_right insert_by_count [] zaehler.

(** The pairs [main] prints, one line each; none when no string was
    found. *)
Definition string_counts (daten : list Byte.byte) : list (str * nat) :=
  most_common (Counter (lese_prg_strings daten)).

(* ------------------------------------------------------------------ *)
(** * Specification vocabulary *)

(** ** The allocator *)

(** [s] is a prefix of [n]. *)
Definition prefix_of (s n : str) : Prop := exists t, n = s ++ t.

Definition len_le (a b : str) : Prop := length a <= length b.

(** What holds of the allocator's state once the names [done] have been
    processed. *)
Record alloc_inv (done : list str) (a : alloc) : Prop := {
  inv_used : forall u,
      In u (used_names a) <-> exists n, dict_get n (short_names a) = Some u;
  inv_prefix : forall n s,
      dict_get n (short_names a) = Some s ->
      In n done /\ s <> [] /\ prefix_of s n;
  inv_total : forall n,
      In n done -> exists s, dict_get n (short_names a) = Some s;
  inv_inj : forall n1 n2 s,
      dict_get n1 (short_names a) = Some s ->
      dict_get n2 (short_names a) = Some s -> n1 = n2;
  inv_minimal : forall n s k,
      dict_get n (short_names a) = Some s -> 1 <= k < length s ->
      exists n', n' <> n /\ dict_get n' (short_names a) = Some (firstn k s)
}.

(** The names processed before [name] are distinct from it, non-empty
    and no longer than it. *)
Definition admissible (done : list str) (name : str) : Prop :=
  ~ In name done /\ name <> [] /\ forall y, In y done -> length y <= length name.

(** A list in which every name is admissible after the ones before it. *)
Definition well_ordered (l : list str) : Prop :=
  NoDup l /\ Forall (fun n => n <> []) l /\ StronglySorted len_le l.

(** ** The meaning of a pattern *)

(** [denote r before w after]: [r] can consume [w] when [before] (nearest
    character first) precedes the cursor and [after] follows [w]. *)
Fixpoint denote (r : regex) (before w after : str) : Prop :=
  match r with
  | Eps => w = []
  | Bol => w = [] /\ before = []
  | Eol => w = [] /\ (after = [] \/ after = [newline])
  | Wordb => w = [] /\ xorb (word_at before) (word_at after) = true
  | Lit c => exists d, w = [d] /\ ci_eqb d c = true
  | Cls p => exists d, w = [d] /\ p d = true
  | Star p => forallb p w = true
  | Plus p => w <> [] /\ forallb p w = true
  | Opt r1 => w = [] \/ denote r1 before w after
  | Cat r1 r2 =>
      exists w1 w2, w = w1 ++ w2
                    /\ denote r1 before w1 (w2 ++ after)
                    /\ denote r2 (rev w1 ++ before) w2 after
  | Alt r1 r2 => denote r1 before w after \/ denote r2 before w after
  | Group _ r1 => denote r1 before w after
  | Ahead r1 =>
      w = [] /\ exists w1 rest, after = w1 ++ rest /\ denote r1 before w1 rest
  end.

Fixpoint no_group (r : regex) : bool :=
  match r with
  | Group _ _ => false
  | Opt r1 | Ahead r1 => no_group r1
  | Cat r1 r2 | Alt r1 r2 => no_group r1 && no_group r2
  | _ => true
  end.

(** Two strings equal up to case, as an escaped literal compares them. *)
Definition ci_equal (w s : str) : Prop :=
  Forall2 (fun d c => ci_eqb d c = true) w s.

(** ** Definition lines, in the words of the specification *)

(** An optional numeric line-label: nothing, or digits followed by
    whitespace. *)
Definition line_label (lab : str) : Prop :=
  lab = []
  \/ exists ds ws, lab = ds ++ ws
                   /\ ds <> [] /\ forallb is_digit ds = true
                   /\ ws <> [] /\ forallb is_space ws = true.

(** A procedure-name token: a letter followed by letters and digits. *)
Definition name_token (tok : str) : Prop :=
  exists c rest, tok = c :: rest
                 /\ is_letter c = true /\ forallb is_alnum rest = true.

(** [t] is a definition line for [name]: an optional label, the keyword,
    one or more whitespace characters, a name token whose upper-case form
    is [name], and trailing whitespace only. *)
Definition definition_line (t name : str) : Prop :=
  exists lab kw sp tok trail,
    t = lab ++ kw ++ sp ++ tok ++ trail
    /\ line_label lab /\ ci_equal kw PROC
    /\ sp <> [] /\ forallb is_space sp = true
    /\ name_token tok /\ forallb is_space trail = true
    /\ name = upper tok.

(** [t] is a definition line followed, after whitespace, by something
    that does not start with whitespace. *)
Definition extra_token_line (t : str) : Prop :=
  exists lab kw sp tok gap c extra,
    t = lab ++ kw ++ sp ++ tok ++ gap ++ c :: extra
    /\ line_label lab /\ ci_equal kw PROC
    /\ sp <> [] /\ forallb is_space sp = true
    /\ name_token tok
    /\ gap <> [] /\ forallb is_space gap = true
    /\ is_space c = false.

(** A known procedure name: an upper-cased name token. *)
Definition procedure_name (n : str) : Prop := name_token n /\ upper n = n.

(** The index [d] holds line [i] for [name]. *)
Definition recorded (d : dict (list nat)) (name : str) (i : nat) : Prop :=
  exists l, dict_get name d = Some l /\ In i l.

(** [rest] does not continue a run of characters of class [q]. *)
Definition stops (q : ascii -> bool) (rest : str) : Prop :=
  match rest with
  | [] => True
  | c :: _ => q c = false
  end.

(** The parts into which the definition pattern cuts a text: leading
    whitespace, label, keyword, separating whitespace, token, and a
    remainder that does not continue the token. *)
Definition parses (t ws0 lab kw sp tok rest : str) : Prop :=
  t = ws0 ++ lab ++ kw ++ sp ++ tok ++ rest
  /\ forallb is_space ws0 = true /\ line_label lab /\ ci_equal kw PROC
  /\ sp <> [] /\ forallb is_space sp = true
  /\ name_token tok /\ stops is_alnum rest.

(** [name] occurs in [line] as a whole word with a colon right after
    it: no word character stands before the occurrence. *)
Definition followed_by_colon (line name : str) : Prop :=
  exists a occ b,
    line = a ++ occ ++ ":"%char :: b
    /\ ci_equal occ name /\ word_at (rev a) = false.

(** ** Indices *)

(** Every key of [d] is a known procedure name and holds a non-empty,
    strictly increasing list of line indices below [bound]. *)
Definition index_shape (bound : nat) (d : dict (list nat)) : Prop :=
  NoDup (dict_keys d)
  /\ forall name l,
       dict_get name d = Some l ->
       procedure_name name /\ l <> [] /\ StronglySorted lt l
       /\ Forall (fun i => i < bound) l.

(** ** Occurrences *)

(** [name] occurs in [line], in any case and anywhere. *)
Definition occurs_ci (name line : str) : Prop :=
  exists a occ b, line = a ++ occ ++ b /\ ci_equal occ name.

(** ** Labels that run into the keyword *)

(** [line] is a definition line for [name] but for its label: digits
    stand directly before the keyword, with no whitespace between. *)
Definition unseparated_label_line (line name : str) : Prop :=
  exists ws ds kw sp tok trail,
    line = ws ++ ds ++ kw ++ sp ++ tok ++ trail
    /\ forallb is_space ws = true
    /\ ds <> [] /\ forallb is_digit ds = true
    /\ ci_equal kw PROC
    /\ sp <> [] /\ forallb is_space sp = true
    /\ name_token tok /\ forallb is_space trail = true
    /\ name = upper tok.

(** ** Quoted strings *)

(** The texts between the first and the second quote of [t], between the
    third and the fourth, and so on, read by a scanner with two states:
    [pending] is [None] outside quotes and holds, nearest character
    first, what was read since the opening quote inside. *)
Fixpoint between_quotes (t : str) (pending : option str) : list str :=
  match t with
  | [] => []
  | c :: t' =>
      match pending with
      | None =>
          if is_quote c then between_quotes t' (Some [])
          else between_quotes t' None
      | Some acc =>
          if is_quote c then rev acc :: between_quotes t' None
          else between_quotes t' (Some (c :: acc))
      end
  end.

(** What a decoded character can be: a line feed, or a printable ASCII
    character. *)
Definition decoded_char (c : ascii) : Prop :=
  c = newline \/ (32 <= code c <= 126)%N.

(* ------------------------------------------------------------------ *)
(** * Properties *)

(** ** Strings, dictionaries *)

Lemma str_eqb_eq (a b : str) : str_eqb a b = true <-> a = b.
Proof.
  unfold str_eqb. destruct (list_eq_dec ascii_dec a b); split; congruence.
Qed.

Lemma str_eqb_refl (a : str) : str_eqb a a = true.
Proof. now apply str_eqb_eq. Qed.

Lemma str_eqb_neq (a b : str) : a <> b -> str_eqb a b = false.
Proof.
  intros H. destruct (str_eqb a b) eqn:E; [|reflexivity].
  apply str_eqb_eq in E. contradiction.
Qed.

Lemma mem_In (s : str) (l : list str) : mem s l = true <-> In s l.
Proof.
  unfold mem. rewrite existsb_exists. split.
  - intros [x [Hin Heq]]. apply str_eqb_eq in Heq. now subst.
  - intros H. exists s. split; [assumption | apply str_eqb_refl].
Qed.

Lemma dict_get_set (V : Type) (k m : str) (v : V) (d : dict V) :
  dict_get k (dict_set m v d) = if str_eqb k m then Some v else dict_get k d.
Proof.
  induction d as [|[k' v'] d IH]; simpl.
  - reflexivity.
  - destruct (str_eqb m k') eqn:Em; simpl.
    + apply str_eqb_eq in Em. subst k'.
      destruct (str_eqb k m); reflexivity.
    + destruct (str_eqb k k') eqn:Ek.
      * apply str_eqb_eq in Ek. subst k'.
        rewrite str_eqb_neq; [reflexivity|].
        intros ->. rewrite str_eqb_refl in Em. discriminate.
      * exact IH.
Qed.

Lemma dict_get_set_same (V : Type) (k : str) (v : V) (d : dict V) :
  dict_get k (dict_set k v d) = Some v.
Proof. rewrite dict_get_set, str_eqb_refl. reflexivity. Qed.

Lemma dict_get_set_other (V : Type) (k m : str) (v : V) (d : dict V) :
  k <> m -> dict_get k (dict_set m v d) = dict_get k d.
Proof. intros H. rewrite dict_get_set, str_eqb_neq; auto. Qed.

(** ** The allocator *)

Lemma prefix_of_firstn (k : nat) (n : str) : prefix_of (firstn k n) n.
Proof. exists (skipn k n). symmetry. apply firstn_skipn. Qed.

Lemma prefix_of_length (s n : str) : prefix_of s n -> length s <= length n.
Proof. intros [t ->]. rewrite length_app. lia. Qed.

Lemma prefix_of_same_length (s n : str) :
  prefix_of s n -> length n <= length s -> s = n.
Proof.
  intros [t ->] H. rewrite length_app in H.
  destruct t; [now rewrite app_nil_r | simpl in H; lia].
Qed.

Section Sorting.

Lemma key_ltb_len (x y : str) : key_ltb x y = true -> len_le x y.
Proof.
  unfold key_ltb, len_le. intros H.
  apply orb_true_iff in H. destruct H as [H|H].
  - apply Nat.ltb_lt in H. lia.
  - apply andb_true_iff in H. destruct H as [H _].
    apply Nat.eqb_eq in H. lia.
Qed.

Lemma key_ltb_false_len (x y : str) : key_ltb x y = false -> len_le y x.
Proof.
  unfold key_ltb, len_le. intros H.
  apply orb_false_iff in H. destruct H as [H _].
  apply Nat.ltb_ge in H. exact H.
Qed.

Lemma insert_sorted_perm (x : str) (l : list str) :
  Permutation (x :: l) (insert_sorted x l).
Proof.
  induction l as [|y l IH]; simpl.
  - apply Permutation_refl.
  - destruct (key_ltb x y).
    + apply Permutation_refl.
    + eapply perm_trans; [apply perm_swap|]. now apply perm_skip.
Qed.

Lemma insert_sorted_sorted (x : str) (l : list str) :
  StronglySorted len_le l -> StronglySorted len_le (insert_sorted x l).
Proof.
  induction l as [|y l IH]; simpl; intros Hs.
  - constructor; constructor.
  - inversion Hs as [|? ? Hl Hy]; subst.
    destruct (key_ltb x y) eqn:E.
    + constructor; [assumption|].
      apply key_ltb_len in E. constructor; [assumption|].
      eapply Forall_impl; [|exact Hy].
      unfold len_le in *. intros; lia.
    + constructor; [now apply IH|].
      apply key_ltb_false_len in E.
      eapply Permutation_Forall; [apply insert_sorted_perm|].
      now constructor.
Qed.

Lemma fold_insert_perm (names acc : list str) :
  Permutation (names ++ acc)
              (fold_left (fun a x => insert_sorted x a) names acc).
Proof.
  revert acc. induction names as [|x names IH]; intros acc; simpl.
  - apply Permutation_refl.
  - eapply perm_trans; [|apply IH].
    eapply perm_trans; [apply Permutation_middle|].
    apply Permutation_app_head. apply insert_sorted_perm.
Qed.

Lemma fold_insert_sorted (names acc : list str) :
  StronglySorted len_le acc ->
  StronglySorted len_le
    (fold_left (fun a x => insert_sorted x a) names acc).
Proof.
  revert acc. induction names as [|x names IH]; intros acc Hs; simpl.
  - exact Hs.
  - apply IH. now apply insert_sorted_sorted.
Qed.

Lemma sorted_procs_perm (names : list str) :
  Permutation names (sorted_procs names).
Proof.
  unfold sorted_procs.
  rewrite <- (app_nil_r names) at 1. apply fold_insert_perm.
Qed.

Lemma sorted_procs_sorted (names : list str) :
  StronglySorted len_le (sorted_procs names).
Proof. apply fold_insert_sorted. constructor. Qed.

Lemma sorted_earlier_shorter (l1 l2 : list str) (x : str) :
  StronglySorted len_le (l1 ++ x :: l2) ->
  forall y, In y l1 -> length y <= length x.
Proof.
  induction l1 as [|z l1 IH]; simpl; intros Hs y Hy.
  - contradiction.
  - inversion Hs as [|? ? Hl Hz]; subst.
    destruct Hy as [->|Hy].
    + rewrite Forall_forall in Hz. apply Hz.
      apply in_or_app. right. now left.
    + now apply IH.
Qed.

End Sorting.

Section PrefixLoop.

Variable f : str -> bool.
Variable name : str.

Lemma find_prefixes_some (len a : nat) (c : str) :
  find f (map (fun n => firstn n name) (seq a len)) = Some c ->
  exists k, a <= k < a + len /\ c = firstn k name /\ f c = true
            /\ forall j, a <= j < k -> f (firstn j name) = false.
Proof.
  revert a. induction len as [|len IH]; intros a; simpl.
  - discriminate.
  - destruct (f (firstn a name)) eqn:E.
    + intros H. injection H as <-. exists a. repeat split; try lia.
      exact E.
    + intros H. destruct (IH _ H) as [k [Hk [Hc [Hf Hj]]]].
      exists k. repeat split; try lia; try assumption.
      intros j Hjk. destruct (Nat.eq_dec j a) as [->|Hne].
      * exact E.
      * apply Hj. lia.
Qed.

Lemma find_prefixes_none (len a : nat) :
  find f (map (fun n => firstn n name) (seq a len)) = None ->
  forall j, a <= j < a + len -> f (firstn j name) = false.
Proof.
  revert a. induction len as [|len IH]; intros a; simpl.
  - intros _ j Hj. lia.
  - destruct (f (firstn a name)) eqn:E; [discriminate|].
    intros H j Hj. destruct (Nat.eq_dec j a) as [->|Hne].
    + exact E.
    + apply (IH _ H). lia.
Qed.

End PrefixLoop.

Lemma first_free_some (name : str) (used : list str) (c : str) :
  first_free name used = Some c ->
  exists k, 1 <= k <= length name /\ c = firstn k name
            /\ ~ In c used
            /\ forall j, 1 <= j < k -> In (firstn j name) used.
Proof.
  unfold first_free. intros H.
  apply find_prefixes_some in H. destruct H as [k [Hk [Hc [Hf Hj]]]].
  exists k. repeat split; try lia; try assumption.
  - intros Hin. apply mem_In in Hin. rewrite Hin in Hf. discriminate.
  - intros j Hjk. apply mem_In.
    specialize (Hj j Hjk). now apply negb_false_iff in Hj.
Qed.

Lemma first_free_none (name : str) (used : list str) :
  first_free name used = None -> name <> [] -> In name used.
Proof.
  unfold first_free. intros H Hne.
  apply mem_In.
  assert (Hj := @find_prefixes_none _ _ _ _ H (length name)).
  rewrite firstn_all in Hj. apply negb_false_iff. apply Hj.
  destruct name; [contradiction | simpl; lia].
Qed.

Lemma alloc_inv_init : alloc_inv [] (Alloc [] []).
Proof.
  constructor; simpl.
  - intros u. split; [contradiction | intros [n H]; discriminate].
  - discriminate.
  - contradiction.
  - discriminate.
  - discriminate.
Qed.

Lemma loop_finds_prefix (done : list str) (a : alloc) (name : str) :
  alloc_inv done a -> admissible done name ->
  exists c, first_free name (used_names a) = Some c.
Proof.
  intros Hinv (Hnew & Hne & Hlen).
  destruct (first_free name (used_names a)) as [c|] eqn:E.
  - now exists c.
  - exfalso. apply first_free_none in E; [|assumption].
    apply (inv_used Hinv) in E. destruct E as [m Hm].
    destruct (inv_prefix Hinv _ Hm) as (Hin & _ & Hpre).
    assert (name = m).
    { apply prefix_of_same_length; [assumption | now apply Hlen]. }
    subst m. contradiction.
Qed.

Lemma assign_inv (done : list str) (a : alloc) (name : str) :
  alloc_inv done a -> admissible done name ->
  alloc_inv (done ++ [name]) (assign a name).
Proof.
  intros Hinv Hadm.
  destruct (loop_finds_prefix Hinv Hadm) as [c Hc].
  destruct Hadm as (Hnew & Hne & Hlen).
  unfold assign. rewrite Hc.
  destruct (first_free_some _ _ Hc) as [k (Hk & Hck & Hfresh & Hbelow)].
  assert (Hother : forall m s, dict_get m (short_names a) = Some s ->
                               m <> name).
  { intros m s Hm ->. apply (inv_prefix Hinv) in Hm. tauto. }
  constructor; simpl.
  - intros u. split.
    + intros [<-|Hu].
      * exists name. apply dict_get_set_same.
      * apply (inv_used Hinv) in Hu. destruct Hu as [m Hm].
        exists m. rewrite dict_get_set_other; eauto.
    + intros [m Hm]. rewrite dict_get_set in Hm.
      destruct (str_eqb m name).
      * left. congruence.
      * right. apply (inv_used Hinv). eauto.
  - intros m s Hm. rewrite dict_get_set in Hm.
    destruct (str_eqb m name) eqn:E.
    + apply str_eqb_eq in E. subst m. injection Hm as <-.
      split; [apply in_or_app; right; now left|].
      split; [|rewrite Hck; apply prefix_of_firstn].
      rewrite Hck. destruct name; [contradiction|].
      destruct k; [lia | simpl; discriminate].
    + destruct (inv_prefix Hinv _ Hm) as (H1 & H2 & H3).
      repeat split; try assumption. apply in_or_app. now left.
  - intros m Hm. rewrite dict_get_set.
    destruct (str_eqb m name) eqn:E; [eauto|].
    apply in_app_or in Hm. destruct Hm as [Hm|[<-|[]]].
    + now apply (inv_total Hinv).
    + rewrite str_eqb_refl in E. discriminate.
  - intros n1 n2 s H1 H2. rewrite dict_get_set in H1, H2.
    destruct (str_eqb n1 name) eqn:E1, (str_eqb n2 name) eqn:E2.
    + apply str_eqb_eq in E1, E2. congruence.
    + exfalso. injection H1 as <-. apply Hfresh.
      apply (inv_used Hinv). eauto.
    + exfalso. injection H2 as <-. apply Hfresh.
      apply (inv_used Hinv). eauto.
    + eapply (inv_inj Hinv); eauto.
  - intros m s j Hm Hj. rewrite dict_get_set in Hm.
    destruct (str_eqb m name) eqn:E.
    + apply str_eqb_eq in E. subst m. injection Hm as <-.
      assert (Hlc : length c <= k).
      { rewrite Hck. rewrite length_firstn. lia. }
      assert (Hjc : firstn j c = firstn j name).
      { rewrite Hck. rewrite firstn_firstn. f_equal. lia. }
      assert (Hin : In (firstn j name) (used_names a)).
      { apply Hbelow. lia. }
      apply (inv_used Hinv) in Hin. destruct Hin as [n' Hn'].
      exists n'. split; [eauto|].
      rewrite dict_get_set_other; [|eauto]. now rewrite Hjc.
    + destruct (inv_minimal Hinv _ Hm Hj) as [n' [Hne' Hn']].
      exists n'. split; [assumption|].
      rewrite dict_get_set_other; eauto.
Qed.

Lemma well_ordered_split (l1 l2 : list str) (x : str) :
  well_ordered (l1 ++ x :: l2) -> well_ordered l1 /\ admissible l1 x.
Proof.
  intros (Hnd & Hne & Hs). split; [split; [|split]|split; [|split]].
  - induction l1 as [|y l1 IH]; [constructor|].
    simpl in Hnd. inversion Hnd; subst. constructor.
    + intros Hin. apply H1. apply in_or_app. now left.
    + apply IH; try assumption.
      * simpl in Hne. now inversion Hne.
      * simpl in Hs. now inversion Hs.
  - apply Forall_app in Hne. tauto.
  - clear Hnd Hne. induction l1 as [|y l1 IH]; [constructor|].
    simpl in Hs. inversion Hs as [|? ? Hl Hy]; subst.
    constructor; [now apply IH|].
    apply Forall_app in Hy. tauto.
  - now apply NoDup_remove_2 in Hnd; intros Hin; apply Hnd, in_or_app; left.
  - apply Forall_app in Hne. destruct Hne as [_ Hne]. now inversion Hne.
  - now apply sorted_earlier_shorter with (l2 := l2).
Qed.

Lemma alloc_run_snoc (l : list str) (x : str) :
  alloc_run (l ++ [x]) = assign (alloc_run l) x.
Proof. unfold alloc_run. now rewrite fold_left_app. Qed.

Lemma alloc_run_inv (l : list str) :
  well_ordered l -> alloc_inv l (alloc_run l).
Proof.
  induction l as [|x l IH] using rev_ind; intros Hw.
  - apply alloc_inv_init.
  - rewrite alloc_run_snoc.
    destruct (well_ordered_split l [] x Hw) as [Hl Hx].
    apply assign_inv; auto.
Qed.

Lemma sorted_procs_well_ordered (names : list str) :
  NoDup names -> Forall (fun n => n <> []) names ->
  well_ordered (sorted_procs names).
Proof.
  intros Hnd Hne. split; [|split].
  - eapply Permutation_NoDup; [apply sorted_procs_perm | assumption].
  - eapply Permutation_Forall; [apply sorted_procs_perm | assumption].
  - apply sorted_procs_sorted.
Qed.

(* ------------------------------------------------------------------ *)
(** * The order in which the set of names is listed does not matter *)

Lemma code_inj (x y : ascii) : code x = code y -> x = y.
Proof.
  unfold code. intros H.
  rewrite <- (ascii_N_embedding x), <- (ascii_N_embedding y). now rewrite H.
Qed.

Lemma str_ltb_irrefl (a : str) : str_ltb a a = false.
Proof.
  induction a as [|x a IH]; simpl; [reflexivity|].
  rewrite N.ltb_irrefl, N.eqb_refl, IH. reflexivity.
Qed.

Lemma str_ltb_trans (a b c : str) :
  str_ltb a b = true -> str_ltb b c = true -> str_ltb a c = true.
Proof.
  revert b c. induction a as [|x a IH]; intros [|y b] [|z c]; simpl;
    try discriminate; try reflexivity.
  intros H1 H2.
  apply orb_true_iff in H1. apply orb_true_iff in H2.
  apply orb_true_iff.
  destruct H1 as [H1|H1], H2 as [H2|H2];
    repeat match goal with
           | H : (_ && _) = true |- _ =>
               apply andb_true_iff in H; destruct H
           | H : (_ <? _)%N = true |- _ => apply N.ltb_lt in H
           | H : (_ =? _)%N = true |- _ => apply N.eqb_eq in H
           end.
  - left. apply N.ltb_lt. lia.
  - left. apply N.ltb_lt. lia.
  - left. apply N.ltb_lt. lia.
  - right. apply andb_true_iff. split; [apply N.eqb_eq; lia | eauto].
Qed.

Lemma str_ltb_total (a b : str) :
  a <> b -> str_ltb a b = true \/ str_ltb b a = true.
Proof.
  revert b. induction a as [|x a IH]; intros [|y b] Hne; simpl.
  - contradiction.
  - now left.
  - now right.
  - destruct (N.lt_trichotomy (code x) (code y)) as [H|[H|H]].
    + left. apply N.ltb_lt in H. now rewrite H.
    + apply code_inj in H. subst y.
      rewrite N.ltb_irrefl, N.eqb_refl. simpl.
      apply IH. congruence.
    + right. apply N.ltb_lt in H. now rewrite H.
Qed.

Lemma key_ltb_irrefl (a : str) : key_ltb a a = false.
Proof.
  unfold key_ltb. now rewrite Nat.ltb_irrefl, Nat.eqb_refl, str_ltb_irrefl.
Qed.

Lemma key_ltb_trans (a b c : str) :
  key_ltb a b = true -> key_ltb b c = true -> key_ltb a c = true.
Proof.
  unfold key_ltb. intros H1 H2.
  apply orb_true_iff in H1. apply orb_true_iff in H2. apply orb_true_iff.
  destruct H1 as [H1|H1], H2 as [H2|H2];
    repeat match goal with
           | H : (_ && _) = true |- _ =>
               apply andb_true_iff in H; destruct H
           | H : (_ <? _) = true |- _ => apply Nat.ltb_lt in H
           | H : (_ =? _) = true |- _ => apply Nat.eqb_eq in H
           end.
  - left. apply Nat.ltb_lt. lia.
  - left. apply Nat.ltb_lt. lia.
  - left. apply Nat.ltb_lt. lia.
  - right. apply andb_true_iff.
    split; [apply Nat.eqb_eq; lia | eauto using str_ltb_trans].
Qed.

Lemma key_ltb_total (a b : str) :
  a <> b -> key_ltb a b = true \/ key_ltb b a = true.
Proof.
  intros Hne. unfold key_ltb.
  destruct (Nat.lt_trichotomy (length a) (length b)) as [H|[H|H]].
  - left. apply Nat.ltb_lt in H. now rewrite H.
  - rewrite H, Nat.ltb_irrefl, Nat.eqb_refl. simpl.
    now apply str_ltb_total.
  - right. apply Nat.ltb_lt in H. now rewrite H.
Qed.

Lemma key_ltb_asym (a b : str) :
  key_ltb a b = true -> key_ltb b a = true -> False.
Proof.
  intros H1 H2. pose proof (key_ltb_trans _ _ _ H1 H2) as H.
  rewrite key_ltb_irrefl in H. discriminate.
Qed.

Lemma insert_sorted_strict (x : str) (l : list str) :
  ~ In x l ->
  StronglySorted (fun a b => key_ltb a b = true) l ->
  StronglySorted (fun a b => key_ltb a b = true) (insert_sorted x l).
Proof.
  induction l as [|y l IH]; simpl; intros Hnew Hs.
  - constructor; constructor.
  - inversion Hs as [|? ? Hl Hy]; subst.
    destruct (key_ltb x y) eqn:E.
    + constructor; [assumption|]. constructor; [assumption|].
      eapply Forall_impl; [|exact Hy].
      intros z Hz. eapply key_ltb_trans; eassumption.
    + constructor; [apply IH; tauto|].
      eapply Permutation_Forall; [apply insert_sorted_perm|].
      constructor; [|assumption].
      destruct (@key_ltb_total y x) as [H|H];
        [intros ->; tauto | assumption | congruence].
Qed.

Lemma fold_insert_strict (names acc : list str) :
  NoDup (names ++ acc) ->
  StronglySorted (fun a b => key_ltb a b = true) acc ->
  StronglySorted (fun a b => key_ltb a b = true)
    (fold_left (fun a x => insert_sorted x a) names acc).
Proof.
  revert acc. induction names as [|x names IH]; intros acc Hnd Hs; simpl.
  - exact Hs.
  - simpl in Hnd. apply NoDup_cons_iff in Hnd. destruct Hnd as [Hx Hnd].
    apply IH.
    + eapply Permutation_NoDup;
        [apply Permutation_app_head, insert_sorted_perm|].
      eapply Permutation_NoDup; [apply Permutation_middle|].
      now constructor.
    + apply insert_sorted_strict; [|assumption].
      intros Hin. apply Hx. apply in_or_app. now right.
Qed.

Lemma strictly_sorted_unique (l1 l2 : list str) :
  StronglySorted (fun a b => key_ltb a b = true) l1 ->
  StronglySorted (fun a b => key_ltb a b = true) l2 ->
  Permutation l1 l2 -> l1 = l2.
Proof.
  revert l2. induction l1 as [|x l1 IH]; intros l2 H1 H2 Hp.
  - apply Permutation_nil in Hp. now subst.
  - destruct l2 as [|y l2].
    + apply Permutation_sym, Permutation_nil in Hp. discriminate.
    + inversion H1 as [|? ? Hs1 Hx]; subst.
      inversion H2 as [|? ? Hs2 Hy]; subst.
      rewrite Forall_forall in Hx, Hy.
      assert (x = y) as <-.
      { destruct (list_eq_dec ascii_dec x y) as [|Hne]; [assumption|].
        exfalso.
        assert (Hxin : In x l2).
        { assert (H : In x (y :: l2))
            by (eapply Permutation_in; [exact Hp | now left]).
          destruct H as [H|H]; [congruence | exact H]. }
        assert (Hyin : In y l1).
        { assert (H : In y (x :: l1))
            by (eapply Permutation_in;
                [apply Permutation_sym; exact Hp | now left]).
          destruct H as [H|H]; [congruence | exact H]. }
        exact (key_ltb_asym _ _ (Hx _ Hyin) (Hy _ Hxin)). }
      f_equal. apply IH; try assumption.
      now apply Permutation_cons_inv in Hp.
Qed.

(** [proc_names] reaches the allocator as [list(a set)]: whatever the
    order of that list, the sorted list and so the mapping are the
    same. *)
Lemma generate_short_names_order (names names' : list str) :
  NoDup names -> Permutation names names' ->
  generate_short_names names = generate_short_names names'.
Proof.
  intros Hnd Hp. unfold generate_short_names. do 2 f_equal.
  apply strictly_sorted_unique.
  - apply fold_insert_strict; [now rewrite app_nil_r | constructor].
  - apply fold_insert_strict; [|constructor].
    rewrite app_nil_r. eapply Permutation_NoDup; eassumption.
  - eapply perm_trans; [apply Permutation_sym, sorted_procs_perm|].
    eapply perm_trans; [exact Hp | apply sorted_procs_perm].
Qed.

(** For the empty string the loop body never runs and the [else] branch
    is taken: the allocator's guarantees are about name tokens. *)
Remark empty_name_falls_back (used : list str) : first_free [] used = None.
Proof. reflexivity. Qed.

(* ------------------------------------------------------------------ *)
(** * Guarantees of the allocator *)

Lemma generate_short_names_inv (names : list str) :
  NoDup names -> Forall (fun n => n <> []) names ->
  alloc_inv (sorted_procs names) (alloc_run (sorted_procs names)).
Proof.
  intros Hnd Hne. apply alloc_run_inv. now apply sorted_procs_well_ordered.
Qed.

(** C5: for pairwise-distinct procedure names (non-empty tokens),
    [generate_short_names] maps every name to a non-empty prefix of
    itself, of length between 1 and the length of the name, and no two
    names to the same short name. *)
Theorem short_names_prefix_injective (names : list str) :
  NoDup names -> Forall (fun n => n <> []) names ->
  (forall n, In n names ->
     exists s, dict_get n (generate_short_names names) = Some s
               /\ prefix_of s n /\ 1 <= length s <= length n)
  /\ (forall n1 n2 s,
        dict_get n1 (generate_short_names names) = Some s ->
        dict_get n2 (generate_short_names names) = Some s -> n1 = n2).
Proof.
  intros Hnd Hne.
  pose proof (generate_short_names_inv Hnd Hne) as Hinv.
  unfold generate_short_names. split.
  - intros n Hin.
    assert (Hin' : In n (sorted_procs names)).
    { eapply Permutation_in; [apply sorted_procs_perm | assumption]. }
    destruct (inv_total Hinv _ Hin') as [s Hs].
    destruct (inv_prefix Hinv _ Hs) as (_ & Hs0 & Hpre).
    exists s. repeat split; try assumption.
    + destruct s; [contradiction | simpl; lia].
    + now apply prefix_of_length.
  - intros n1 n2 s. apply (inv_inj Hinv).
Qed.

Lemma short_names_prefix_injective_witness :
  let names := [txt "APPLE"; txt "APRICOT"] in
  dict_get (txt "APRICOT") (generate_short_names names) = Some (txt "AP")
  /\ (forall n, In n names ->
        exists s, dict_get n (generate_short_names names) = Some s
                  /\ prefix_of s n /\ 1 <= length s <= length n)
  /\ (forall n1 n2 s,
        dict_get n1 (generate_short_names names) = Some s ->
        dict_get n2 (generate_short_names names) = Some s -> n1 = n2).
Proof.
  intros names. split; [reflexivity|].
  apply (@short_names_prefix_injective names).
  - repeat constructor; simpl; intuition discriminate.
  - repeat constructor; discriminate.
Defined.

(** C3: for pairwise-distinct procedure names, a short name of length
    [k > 1] has its prefix of length [k - 1] assigned to another name of
    the same mapping. *)
Theorem short_names_minimal (names : list str) :
  NoDup names -> Forall (fun n => n <> []) names ->
  forall n s k,
    dict_get n (generate_short_names names) = Some s ->
    length s = k -> 1 < k ->
    exists n', n' <> n
               /\ dict_get n' (generate_short_names names)
                  = Some (firstn (k - 1) s).
Proof.
  intros Hnd Hne n s k Hs Hk Hk1.
  pose proof (generate_short_names_inv Hnd Hne) as Hinv.
  apply (inv_minimal Hinv _ Hs). lia.
Qed.

Lemma short_names_minimal_witness :
  exists n', n' <> txt "APRICOT"
             /\ dict_get n' (generate_short_names
                               [txt "APRICOT"; txt "APPLE"])
                = Some (txt "A").
Proof.
  apply (@short_names_minimal [txt "APRICOT"; txt "APPLE"])
    with (s := txt "AP") (k := 2).
  - repeat constructor; simpl; intuition discriminate.
  - repeat constructor; discriminate.
  - reflexivity.
  - reflexivity.
  - lia.
Defined.

(** C9: for pairwise-distinct procedure names, processed in (length,
    lexicographic) order, the prefix loop finds an unclaimed prefix for
    every name, so [assign] never takes the fallback branch. *)
Theorem fallback_unreachable (names : list str) :
  NoDup names -> Forall (fun n => n <> []) names ->
  forall l1 n l2,
    sorted_procs names = l1 ++ n :: l2 ->
    exists c,
      first_free n (used_names (alloc_run l1)) = Some c
      /\ assign (alloc_run l1) n
         = Alloc (dict_set n c (short_names (alloc_run l1)))
                 (c :: used_names (alloc_run l1)).
Proof.
  intros Hnd Hne l1 n l2 Hsplit.
  pose proof (sorted_procs_well_ordered Hnd Hne) as Hw.
  rewrite Hsplit in Hw.
  destruct (well_ordered_split _ _ _ Hw) as [Hl1 Hadm].
  destruct (loop_finds_prefix (alloc_run_inv Hl1) Hadm) as [c Hc].
  exists c. split; [assumption|].
  unfold assign. now rewrite Hc.
Qed.

Lemma fallback_unreachable_witness :
  exists c,
    first_free (txt "APRICOT") (used_names (alloc_run [txt "APPLE"])) = Some c
    /\ assign (alloc_run [txt "APPLE"]) (txt "APRICOT")
       = Alloc (dict_set (txt "APRICOT") c
                         (short_names (alloc_run [txt "APPLE"])))
               (c :: used_names (alloc_run [txt "APPLE"])).
Proof.
  apply (@fallback_unreachable [txt "APRICOT"; txt "APPLE"])
    with (l2 := @nil str).
  - repeat constructor; simpl; intuition discriminate.
  - repeat constructor; discriminate.
  - reflexivity.
Defined.

(* ------------------------------------------------------------------ *)
(** * Lines *)

Lemma split_lines_not_nil (s : str) : split_lines s <> [].
Proof.
  induction s as [|c s IH]; simpl; [discriminate|].
  destruct (Ascii.eqb c newline); [discriminate|].
  destruct (split_lines s); discriminate.
Qed.

Lemma join_lines_cons_char (c : ascii) (l : str) (ls : list str) :
  join_lines ((c :: l) :: ls) = c :: join_lines (l :: ls).
Proof. destruct ls; reflexivity. Qed.

Lemma join_lines_cons_nil (ls : list str) :
  ls <> [] -> join_lines ([] :: ls) = newline :: join_lines ls.
Proof. destruct ls; [contradiction | reflexivity]. Qed.

Lemma join_split_lines (s : str) : join_lines (split_lines s) = s.
Proof.
  induction s as [|c s IH]; simpl; [reflexivity|].
  destruct (Ascii.eqb c newline) eqn:E.
  - apply Ascii.eqb_eq in E. subst c.
    rewrite join_lines_cons_nil by apply split_lines_not_nil.
    now rewrite IH.
  - destruct (split_lines s) eqn:Es.
    + now apply split_lines_not_nil in Es.
    + rewrite join_lines_cons_char. now rewrite IH.
Qed.

Lemma rewrite_lines_empty (lines : list str) : rewrite_lines [] lines = lines.
Proof.
  unfold rewrite_lines, rewrite_line. simpl. apply map_id.
Qed.

Lemma scan_nothing (ils : list (nat * str)) (d : dict (list nat)) :
  (forall il, In il ils -> scan_line (snd il) = None) ->
  fold_left scan_step ils d = d.
Proof.
  revert d. induction ils as [|il ils IH]; intros d H; simpl.
  - reflexivity.
  - unfold scan_step at 2. rewrite (H il (or_introl eq_refl)).
    apply IH. intros il' Hin. apply H. now right.
Qed.

Lemma in_enumerate_snd (A : Type) (l : list A) (il : nat * A) :
  In il (enumerate l) -> In (snd il) l.
Proof.
  unfold enumerate. destruct il as [i x]. intros H.
  now apply in_combine_r in H.
Qed.

(** C8: when no line of the text is a definition line, the index and the
    name mapping are empty and the rewritten text is the input text. *)
Theorem no_procedures_identity (content : str) :
  (forall line, In line (split_lines content) -> scan_line line = None) ->
  find_all_procedures content = []
  /\ generate_short_names (dict_keys (find_all_procedures content)) = []
  /\ shorten content = content.
Proof.
  intros H.
  assert (Hd : find_all_procedures content = []).
  { unfold find_all_procedures. apply scan_nothing.
    intros il Hin. apply H. now apply in_enumerate_snd. }
  unfold shorten. rewrite Hd. simpl.
  repeat split.
  unfold replace_procedures_and_calls, generate_short_names. simpl.
  rewrite rewrite_lines_empty. apply join_split_lines.
Qed.

Lemma no_procedures_identity_witness :
  let content := txt "PRINT 1" ++ NL ++ txt "# PROC X" ++ NL in
  find_all_procedures content = []
  /\ generate_short_names (dict_keys (find_all_procedures content)) = []
  /\ shorten content = content.
Proof.
  intros content. apply (@no_procedures_identity content).
  intros line Hin. vm_compute in Hin.
  destruct Hin as [<-|[<-|[<-|[]]]]; vm_compute; reflexivity.
Defined.

(* ------------------------------------------------------------------ *)
(** * The matcher against the meaning of patterns *)

Lemma star_from_iff (p : ascii -> bool) (sf pr : str) (g : list (nat * str))
  (st' : mstate) :
  In st' (star_from p pr sf g) <->
  exists w, sf = w ++ suf st' /\ pre st' = rev w ++ pr
            /\ forallb p w = true /\ grp st' = g.
Proof.
  revert pr. induction sf as [|c sf IH]; intros pr; simpl.
  - split.
    + intros [<-|[]]. exists []. now repeat split.
    + intros [w (Hw & Hp & _ & Hg)].
      destruct w; [|discriminate]. simpl in *.
      left. destruct st'; simpl in *; congruence.
  - destruct (p c) eqn:Ec.
    + rewrite in_app_iff, IH. simpl. split.
      * intros [[w (Hw & Hp & Hf & Hg)]|[<-|[]]].
        -- exists (c :: w). simpl. rewrite Ec, Hf, Hp, <- app_assoc.
           repeat split; congruence.
        -- exists []. now repeat split.
      * intros [w (Hw & Hp & Hf & Hg)]. destruct w as [|d w]; simpl in *.
        -- right. left. destruct st'; simpl in *; congruence.
        -- left. injection Hw as <- Hw. exists w.
           apply andb_true_iff in Hf. rewrite <- app_assoc in Hp.
           repeat split; tauto.
    + split.
      * intros [<-|[]]. exists []. now repeat split.
      * intros [w (Hw & Hp & Hf & Hg)]. destruct w as [|d w]; simpl in *.
        -- left. destruct st'; simpl in *; congruence.
        -- injection Hw as <- Hw. rewrite Ec in Hf. discriminate.
Qed.

(** Every result of the matcher is a match in the sense of [denote]. *)
Lemma exec_sound (r : regex) :
  forall st st', In st' (exec r st) ->
  exists w, suf st = w ++ suf st' /\ pre st' = rev w ++ pre st
            /\ denote r (pre st) w (suf st').
Proof.
  induction r; intros st st'; simpl.
  - intros [<-|[]]. now exists [].
  - destruct (pre st) eqn:E; [|contradiction].
    intros [<-|[]]. exists []. now rewrite E.
  - destruct (suf st) as [|c [|c' rest]] eqn:E.
    + intros [<-|[]]. exists []. rewrite E. auto.
    + destruct (Ascii.eqb c newline) eqn:Ec; [|contradiction].
      apply Ascii.eqb_eq in Ec. subst c.
      intros [<-|[]]. exists []. rewrite E. auto.
    + contradiction.
  - destruct (xorb _ _) eqn:E; [|contradiction].
    intros [<-|[]]. exists []. auto.
  - destruct (suf st) as [|d rest] eqn:E; [contradiction|].
    destruct (ci_eqb d c) eqn:Ec; [|contradiction].
    intros [<-|[]]. exists [d]. simpl. eauto.
  - destruct (suf st) as [|d rest] eqn:E; [contradiction|].
    destruct (p d) eqn:Ec; [|contradiction].
    intros [<-|[]]. exists [d]. simpl. eauto.
  - intros H. apply star_from_iff in H.
    destruct H as [w (Hw & Hp & Hf & _)]. eauto.
  - destruct (suf st) as [|d rest] eqn:E; [contradiction|].
    destruct (p d) eqn:Ec; [|contradiction].
    intros H. apply star_from_iff in H.
    destruct H as [w (Hw & Hp & Hf & _)].
    exists (d :: w). simpl. rewrite Hw, Hp, Ec, Hf, <- app_assoc.
    repeat split. discriminate.
  - rewrite in_app_iff. intros [H|[<-|[]]].
    + destruct (IHr _ _ H) as [w Hw]. exists w. tauto.
    + exists []. auto.
  - rewrite in_flat_map. intros [m [H1 H2]].
    destruct (IHr1 _ _ H1) as [w1 (Hs1 & Hp1 & Hd1)].
    destruct (IHr2 _ _ H2) as [w2 (Hs2 & Hp2 & Hd2)].
    exists (w1 ++ w2). rewrite Hs1, Hs2, Hp2, Hp1, rev_app_distr.
    rewrite !app_assoc. repeat split.
    exists w1, w2. rewrite <- Hs2, <- Hp1. auto.
  - rewrite in_app_iff. intros [H|H].
    + destruct (IHr1 _ _ H) as [w Hw]. exists w. tauto.
    + destruct (IHr2 _ _ H) as [w Hw]. exists w. tauto.
  - rewrite in_map_iff. intros [m [<- H]]. simpl.
    apply (IHr _ _ H).
  - destruct (exec r st) as [|m ms] eqn:E; [contradiction|].
    intros [<-|[]]. exists []. repeat split.
    destruct (IHr st m) as [w (Hs & _ & Hd)]; [rewrite E; now left|].
    eauto.
Qed.

(** Every match in the sense of [denote] is among the matcher's
    results. *)
Lemma exec_complete (r : regex) :
  forall before w after g, denote r before w after ->
  exists g', In (MState (rev w ++ before) after g')
                (exec r (MState before (w ++ after) g)).
Proof.
  induction r; intros before w after g; simpl.
  - intros ->. exists g. now left.
  - intros [-> ->]. exists g. now left.
  - intros [-> [->| ->]]; exists g; simpl; now left.
  - intros [-> H]. simpl. rewrite H. exists g. now left.
  - intros [d [-> H]]. simpl. rewrite H. exists g. now left.
  - intros [d [-> H]]. simpl. rewrite H. exists g. now left.
  - intros H. exists g. apply star_from_iff. exists w. now repeat split.
  - intros [Hne H]. destruct w as [|d w]; [contradiction|]. simpl in *.
    apply andb_true_iff in H. destruct H as [Hd Hw]. rewrite Hd.
    exists g. apply star_from_iff. exists w. simpl.
    rewrite <- app_assoc. now repeat split.
  - intros [->|H].
    + exists g. apply in_or_app. right. now left.
    + destruct (IHr _ _ _ g H) as [g' Hg']. exists g'.
      apply in_or_app. now left.
  - intros [w1 [w2 (-> & H1 & H2)]].
    destruct (IHr1 _ _ _ g H1) as [g1 Hg1].
    destruct (IHr2 _ _ _ g1 H2) as [g2 Hg2].
    exists g2. apply in_flat_map.
    exists (MState (rev w1 ++ before) (w2 ++ after) g1).
    rewrite <- app_assoc. split; [assumption|].
    now rewrite rev_app_distr, <- app_assoc.
  - intros [H|H].
    + destruct (IHr1 _ _ _ g H) as [g' Hg']. exists g'.
      apply in_or_app. now left.
    + destruct (IHr2 _ _ _ g H) as [g' Hg']. exists g'.
      apply in_or_app. now right.
  - intros H. destruct (IHr _ _ _ g H) as [g' Hg'].
    eexists. apply in_map_iff.
    exists (MState (rev w ++ before) after g'). split; [reflexivity|].
    exact Hg'.
  - intros [-> [w1 [rest [-> H]]]]. simpl.
    destruct (IHr _ _ _ g H) as [g' Hg'].
    destruct (exec r (MState before (w1 ++ rest) g)); [contradiction|].
    exists g. now left.
Qed.

Lemma exec_no_group (r : regex) :
  no_group r = true ->
  forall st st', In st' (exec r st) -> grp st' = grp st.
Proof.
  induction r; simpl; intros Hng st st' H;
    try (apply andb_true_iff in Hng; destruct Hng as [Hng1 Hng2]).
  - destruct H as [<-|[]]; reflexivity.
  - destruct (pre st); [destruct H as [<-|[]]; reflexivity | contradiction].
  - destruct (suf st) as [|c [|c' rest]]; try contradiction.
    + destruct H as [<-|[]]; reflexivity.
    + destruct (Ascii.eqb c newline); [|contradiction].
      destruct H as [<-|[]]; reflexivity.
  - destruct (xorb _ _); [destruct H as [<-|[]]; reflexivity|contradiction].
  - destruct (suf st); [contradiction|].
    destruct (ci_eqb a c); [destruct H as [<-|[]]; reflexivity|contradiction].
  - destruct (suf st); [contradiction|].
    destruct (p a); [destruct H as [<-|[]]; reflexivity|contradiction].
  - apply star_from_iff in H. now destruct H as [w (_ & _ & _ & Hg)].
  - destruct (suf st); [contradiction|].
    destruct (p a); [|contradiction]. apply star_from_iff in H.
    now destruct H as [w (_ & _ & _ & Hg)].
  - apply in_app_iff in H. destruct H as [H|[<-|[]]]; auto.
  - apply in_flat_map in H. destruct H as [m [H1 H2]].
    rewrite (IHr2 Hng2 _ _ H2). now apply IHr1.
  - apply in_app_iff in H. destruct H as [H|H]; auto.
  - discriminate.
  - destruct (exec r st); [contradiction|].
    destruct H as [<-|[]]; reflexivity.
Qed.

Lemma re_match_sound (r : regex) (s : str) (m : mstate) :
  re_match r s = Some m ->
  exists w, s = w ++ suf m /\ denote r [] w (suf m).
Proof.
  unfold re_match. intros H.
  destruct (exec r (MState [] s [])) as [|m' ms] eqn:E; [discriminate|].
  injection H as ->.
  destruct (@exec_sound r (MState [] s []) m) as [w (Hs & _ & Hd)].
  { rewrite E. now left. }
  exists w. auto.
Qed.

Lemma re_match_complete (r : regex) (w after : str) :
  denote r [] w after -> exists m, re_match r (w ++ after) = Some m.
Proof.
  intros H. destruct (exec_complete r _ _ _ [] H) as [g' Hg'].
  unfold re_match.
  destruct (exec r (MState [] (w ++ after) [])) as [|m ms];
    [contradiction | now exists m].
Qed.

Lemma re_match_none (r : regex) (s : str) :
  (forall w after, s = w ++ after -> ~ denote r [] w after) ->
  re_match r s = None.
Proof.
  intros H. destruct (re_match r s) as [m|] eqn:E; [|reflexivity].
  destruct (re_match_sound _ _ E) as [w [Hs Hd]].
  now apply H in Hd.
Qed.

Lemma search_from_hit (r : regex) (pr sf : str) :
  exec r (MState pr sf []) <> [] -> search_from r pr sf = true.
Proof.
  intros H. destruct sf; simpl; destruct (exec r _); congruence.
Qed.

Lemma search_from_complete (r : regex) (a w after pr : str) :
  denote r (rev a ++ pr) w after ->
  search_from r pr (a ++ w ++ after) = true.
Proof.
  revert pr. induction a as [|c a IH]; intros pr H; simpl in *.
  - destruct (exec_complete r _ _ _ [] H) as [g' Hg'].
    apply search_from_hit. intros E. now rewrite E in Hg'.
  - destruct (exec r _); [|reflexivity].
    apply IH. now rewrite <- app_assoc in H.
Qed.

Lemma search_from_sound (r : regex) (sf pr : str) :
  search_from r pr sf = true ->
  exists a w after, sf = a ++ w ++ after /\ denote r (rev a ++ pr) w after.
Proof.
  revert pr. induction sf as [|c sf IH]; intros pr; simpl.
  - destruct (exec r (MState pr [] [])) as [|m ms] eqn:E; [discriminate|].
    intros _.
    destruct (@exec_sound r (MState pr [] []) m) as [w (Hs & _ & Hd)].
    { rewrite E. now left. }
    exists [], w, (suf m). auto.
  - destruct (exec r (MState pr (c :: sf) [])) as [|m ms] eqn:E.
    + intros H. destruct (IH _ H) as [a [w [after [Hs Hd]]]].
      exists (c :: a), w, after. simpl. rewrite <- app_assoc.
      split; [now rewrite Hs | exact Hd].
    + intros _.
      destruct (@exec_sound r (MState pr (c :: sf) []) m)
        as [w (Hs & _ & Hd)].
      { rewrite E. now left. }
      exists [], w, (suf m). auto.
Qed.

(* ------------------------------------------------------------------ *)
(** * Character classes *)

Ltac each_char c :=
  destruct c as [[] [] [] [] [] [] [] []]; vm_compute;
  repeat split; intros; try reflexivity; try discriminate; try congruence.

Lemma lower_is_letter (c : ascii) : is_letter (lower c) = is_letter c.
Proof. each_char c. Qed.

Lemma lower_is_alnum (c : ascii) : is_alnum (lower c) = is_alnum c.
Proof. each_char c. Qed.

Lemma lower_upper_char (c : ascii) : lower (upper_char c) = lower c.
Proof. each_char c. Qed.

Lemma upper_char_lower (c : ascii) :
  is_alnum c = true -> upper_char (lower c) = upper_char c.
Proof. each_char c. Qed.

Lemma digit_classes (c : ascii) :
  is_digit c = true ->
  is_space c = false /\ is_letter c = false /\ Ascii.eqb c hash = false
  /\ is_alnum c = true.
Proof. each_char c. Qed.

Lemma alnum_classes (c : ascii) :
  is_alnum c = true ->
  is_space c = false /\ is_word c = true /\ Ascii.eqb c hash = false.
Proof. each_char c. Qed.

Lemma letter_classes (c : ascii) :
  is_letter c = true -> is_alnum c = true /\ is_digit c = false.
Proof. each_char c. Qed.

Lemma space_classes (c : ascii) :
  is_space c = true ->
  is_digit c = false /\ is_alnum c = false /\ is_word c = false.
Proof. each_char c. Qed.

Lemma ci_eqb_lower (d c : ascii) : ci_eqb d c = true -> lower d = lower c.
Proof. unfold ci_eqb. apply Ascii.eqb_eq. Qed.

Lemma ci_eqb_upper_char (c : ascii) : ci_eqb c (upper_char c) = true.
Proof.
  unfold ci_eqb. rewrite lower_upper_char. apply Ascii.eqb_refl.
Qed.

Lemma ci_eqb_is_letter (d c : ascii) :
  ci_eqb d c = true -> is_letter d = is_letter c.
Proof.
  intros H. apply ci_eqb_lower in H.
  now rewrite <- (lower_is_letter d), H, lower_is_letter.
Qed.

Lemma ci_eqb_is_alnum (d c : ascii) :
  ci_eqb d c = true -> is_alnum d = is_alnum c.
Proof.
  intros H. apply ci_eqb_lower in H.
  now rewrite <- (lower_is_alnum d), H, lower_is_alnum.
Qed.

Lemma ci_eqb_upper (d c : ascii) :
  ci_eqb d c = true -> is_alnum c = true -> upper_char d = upper_char c.
Proof.
  intros H Hc. pose proof (ci_eqb_is_alnum _ _ H) as Hd. rewrite Hc in Hd.
  apply ci_eqb_lower in H.
  now rewrite <- (upper_char_lower _ Hd), H, upper_char_lower.
Qed.

Lemma ci_equal_length (w s : str) : ci_equal w s -> length w = length s.
Proof. induction 1; simpl; congruence. Qed.

Lemma ci_equal_upper (w : str) : ci_equal w (upper w).
Proof.
  induction w; simpl; constructor; auto using ci_eqb_upper_char.
Qed.

(** The keyword starts with a letter and has four characters. *)
Lemma keyword_shape (kw : str) :
  ci_equal kw PROC ->
  exists p rest, kw = p :: rest /\ is_letter p = true /\ length kw = 4.
Proof.
  intros H. pose proof (ci_equal_length H) as Hl.
  inversion H as [|p c rest cs Hp Hrest]; subst.
  exists p, rest. repeat split; [|exact Hl].
  now rewrite (ci_eqb_is_letter _ _ Hp).
Qed.

Lemma keyword_no_space (kw : str) :
  ci_equal kw PROC -> forallb is_alnum kw = true.
Proof.
  intros H. unfold ci_equal, PROC in H. simpl in H.
  repeat match goal with
         | H : Forall2 _ _ (_ :: _) |- _ => inversion H; clear H; subst
         | H : Forall2 _ _ [] |- _ => inversion H; clear H; subst
         end.
  simpl.
  repeat match goal with
         | H : ci_eqb _ _ = true |- _ =>
             apply ci_eqb_is_alnum in H; rewrite H; clear H
         end.
  reflexivity.
Qed.

Lemma denote_lit (s before w after : str) :
  denote (lit s) before w after <-> ci_equal w s.
Proof.
  revert before w. induction s as [|c s IH]; intros before w; simpl.
  - split; [intros ->; constructor | now inversion 1].
  - split.
    + intros (w1 & w2 & -> & (d & -> & Hd) & H2).
      constructor; [assumption | now apply IH in H2].
    + inversion 1 as [|d c' w' s' Hd Hw]; subst.
      exists [d], w'. repeat split; [eauto | now apply IH].
Qed.

Arguments lit : simpl never.

(* ------------------------------------------------------------------ *)
(** * Runs of one class, and stripping *)

Lemma span_unique (q : ascii -> bool) (a a' b b' : str) :
  forallb q a = true -> forallb q a' = true ->
  stops q b -> stops q b' ->
  a ++ b = a' ++ b' -> a = a' /\ b = b'.
Proof.
  revert a'. induction a as [|c a IH]; intros [|c' a'] Ha Ha' Hb Hb' E;
    simpl in *.
  - auto.
  - subst b. simpl in Hb. apply andb_true_iff in Ha'. destruct Ha'. congruence.
  - subst b'. simpl in Hb'. apply andb_true_iff in Ha. destruct Ha. congruence.
  - injection E as -> E.
    apply andb_true_iff in Ha. apply andb_true_iff in Ha'.
    destruct (IH a') as [-> ->]; tauto.
Qed.

Lemma lstrip_decompose (s : str) :
  exists a, s = a ++ lstrip s /\ forallb is_space a = true.
Proof.
  induction s as [|c s [a [Ha Hsp]]]; simpl.
  - now exists [].
  - destruct (is_space c) eqn:E.
    + exists (c :: a). simpl. rewrite E, Hsp. now rewrite <- Ha.
    + now exists [].
Qed.

Lemma lstrip_stops (s : str) : stops is_space (lstrip s).
Proof.
  induction s as [|c s IH]; simpl; [exact I|].
  destruct (is_space c) eqn:E; [exact IH | exact E].
Qed.

Lemma rstrip_decompose (s : str) :
  exists b, s = rstrip s ++ b /\ forallb is_space b = true.
Proof.
  induction s as [|c s [b [Hb Hsp]]]; simpl.
  - now exists [].
  - destruct (rstrip s) as [|r rs] eqn:Er.
    + simpl in Hb. subst b. destruct (is_space c) eqn:E.
      * exists (c :: s). simpl. now rewrite E, Hsp.
      * exists s. auto.
    + exists b. split; [simpl; f_equal; exact Hb | exact Hsp].
Qed.

Lemma rstrip_stops (s : str) : stops is_space s -> stops is_space (rstrip s).
Proof.
  destruct s as [|c s]; simpl; [auto|].
  intros H. destruct (rstrip s); [now rewrite H | exact H].
Qed.

Lemma strip_stops (line : str) : stops is_space (strip line).
Proof. apply rstrip_stops, lstrip_stops. Qed.

Lemma strip_decompose (line : str) :
  exists a b, line = a ++ strip line ++ b
              /\ forallb is_space a = true /\ forallb is_space b = true.
Proof.
  destruct (lstrip_decompose line) as [a [Ha Hsa]].
  destruct (rstrip_decompose (lstrip line)) as [b [Hb Hsb]].
  exists a, b. unfold strip. now rewrite <- Hb.
Qed.

(** A line that starts, after whitespace, with a character other than
    the comment marker is not a comment line. *)
Lemma strip_first_char (ws rest : str) (c : ascii) :
  forallb is_space ws = true -> is_space c = false ->
  Ascii.eqb c hash = false ->
  starts_with_hash (strip (ws ++ c :: rest)) = false.
Proof.
  intros Hws Hc Hh.
  destruct (strip_decompose (ws ++ c :: rest)) as [a [b (E & Ha & _)]].
  pose proof (strip_stops (ws ++ c :: rest)) as Hst.
  destruct (strip (ws ++ c :: rest)) as [|d t] eqn:Es.
  - reflexivity.
  - simpl in *.
    destruct (@span_unique is_space ws a (c :: rest) (d :: t ++ b))
      as [_ E']; auto.
    injection E' as -> _. exact Hh.
Qed.

(* ------------------------------------------------------------------ *)
(** * The rewriter's definition pattern *)

Lemma proc_re_inv (old before w after : str) :
  denote (proc_re old) before w after ->
  exists ws1 ds ws2 kw sp occ trail,
    w = ws1 ++ ds ++ ws2 ++ kw ++ sp ++ occ ++ trail
    /\ forallb is_space ws1 = true /\ forallb is_digit ds = true
    /\ forallb is_space ws2 = true /\ ci_equal kw PROC
    /\ sp <> [] /\ forallb is_space sp = true
    /\ ci_equal occ old /\ forallb is_space trail = true
    /\ before = [] /\ (after = [] \/ after = [newline]).
Proof.
  unfold proc_re. cbn [denote].
  intros (w1 & w2 & -> & H1 & -> & Hend).
  destruct H1 as (w3 & trail & -> & H3 & Htrail).
  destruct H3 as (w4 & occ & -> & H4 & Hocc).
  destruct H4 as (w5 & g1 & -> & (-> & ->) & Hg1).
  destruct Hg1 as (w6 & sp & -> & H6 & Hne & Hsp).
  destruct H6 as (w7 & kw & -> & H7 & Hkw).
  destruct H7 as (w8 & ws2 & -> & H8 & Hws2).
  destruct H8 as (ws1 & ds & -> & Hws1 & Hds).
  apply denote_lit in Hocc, Hkw.
  exists ws1, ds, ws2, kw, sp, occ, trail.
  simpl. rewrite app_nil_r, <- !app_assoc. repeat split; assumption.
Qed.

Lemma proc_re_intro (old ws1 ds ws2 kw sp occ trail : str) :
  forallb is_space ws1 = true -> forallb is_digit ds = true ->
  forallb is_space ws2 = true -> ci_equal kw PROC ->
  sp <> [] -> forallb is_space sp = true ->
  ci_equal occ old -> forallb is_space trail = true ->
  denote (proc_re old) []
         (ws1 ++ ds ++ ws2 ++ kw ++ sp ++ occ ++ trail) [].
Proof.
  intros Hws1 Hds Hws2 Hkw Hne Hsp Hocc Htrail.
  unfold proc_re. cbn [denote].
  exists (ws1 ++ ds ++ ws2 ++ kw ++ sp ++ occ ++ trail), [].
  split; [now rewrite app_nil_r|]. split; [|auto].
  exists (ws1 ++ ds ++ ws2 ++ kw ++ sp ++ occ), trail.
  split; [now rewrite <- !app_assoc|]. split; [|assumption].
  exists (ws1 ++ ds ++ ws2 ++ kw ++ sp), occ.
  split; [now rewrite <- !app_assoc|]. split; [|now apply denote_lit].
  exists [], (ws1 ++ ds ++ ws2 ++ kw ++ sp).
  split; [reflexivity|]. split; [auto|].
  exists (ws1 ++ ds ++ ws2 ++ kw), sp.
  split; [now rewrite <- !app_assoc|]. split; [|auto].
  exists (ws1 ++ ds ++ ws2), kw.
  split; [now rewrite <- !app_assoc|]. split; [|now apply denote_lit].
  exists (ws1 ++ ds), ws2.
  split; [now rewrite <- !app_assoc|]. split; [|assumption].
  exists ws1, ds. auto.
Qed.

(** The definition pattern of the rewriter matches no comment line. *)
Lemma proc_re_not_comment (old line : str) :
  starts_with_hash (strip line) = true ->
  re_match (proc_re old) line = None.
Proof.
  intros Hhash. apply re_match_none. intros w after E Hd.
  apply proc_re_inv in Hd.
  destruct Hd as (ws1 & ds & ws2 & kw & sp & occ & trail & -> & Hws1 & Hds
                  & Hws2 & Hkw & _).
  destruct (keyword_shape Hkw) as (p & rest & -> & Hp & _).
  subst line.
  destruct ds as [|d ds].
  - simpl in Hhash.
    assert (Hp' : is_alnum p = true) by (now apply letter_classes).
    apply alnum_classes in Hp'. destruct Hp' as (Hps & _ & Hph).
    rewrite <- !app_assoc in Hhash. rewrite (app_assoc ws1 ws2) in Hhash.
    simpl in Hhash. rewrite strip_first_char in Hhash; try assumption.
    + discriminate.
    + rewrite forallb_app, Hws1, Hws2. reflexivity.
  - simpl in Hds. apply andb_true_iff in Hds. destruct Hds as [Hd _].
    apply digit_classes in Hd. destruct Hd as (Hdsp & _ & Hdh & _).
    rewrite <- !app_assoc in Hhash. simpl in Hhash.
    rewrite strip_first_char in Hhash; try assumption. discriminate.
Qed.

Lemma rewrite_line_comment (name_mapping : dict str) (line : str) :
  starts_with_hash (strip line) = true ->
  rewrite_line name_mapping line = line.
Proof.
  intros Hhash. unfold rewrite_line.
  enough (H : forall cur, fold_left (rewrite_step line) name_mapping cur = cur)
    by apply H.
  induction name_mapping as [|[old_name new_name] m IH]; intros cur; simpl.
  - reflexivity.
  - rewrite (proc_re_not_comment old_name line Hhash), Hhash. simpl.
    apply IH.
Qed.

(** C10: for every text and every name mapping whose short names are
    plain templates (they hold no backslash, as the prefixes of procedure
    names do), a line whose trimmed content begins with the comment
    marker is matched by the definition pattern of no name, and is the
    same line in the rewriter's output. *)
Theorem comment_lines_unchanged (content : str) (name_mapping : dict str)
  (i : nat) (line : str) :
  plain_replacements name_mapping = true ->
  nth_error (split_lines content) i = Some line ->
  starts_with_hash (strip line) = true ->
  (forall old_name, re_match (proc_re old_name) line = None)
  /\ nth_error (rewrite_lines name_mapping (split_lines content)) i
     = Some line.
Proof.
  intros _ Hi Hhash. split.
  - intros old_name. now apply proc_re_not_comment.
  - unfold rewrite_lines. rewrite nth_error_map, Hi. simpl.
    now rewrite rewrite_line_comment.
Qed.

Lemma comment_lines_unchanged_witness :
  let content := txt "  # PROC ALPHA: ALPHA" ++ NL ++ txt "PROC ALPHA" in
  let line := txt "  # PROC ALPHA: ALPHA" in
  plain_replacements [(txt "ALPHA", txt "A")] = true
  /\ (forall old_name, re_match (proc_re old_name) line = None)
  /\ nth_error (rewrite_lines [(txt "ALPHA", txt "A")] (split_lines content)) 0
     = Some line.
Proof.
  intros content line. split; [reflexivity|].
  apply (@comment_lines_unchanged content [(txt "ALPHA", txt "A")] 0 line);
    reflexivity.
Defined.

(* ------------------------------------------------------------------ *)
(** * The definition pattern *)

Lemma def_head_inv (before w after : str) :
  denote def_head before w after ->
  before = []
  /\ exists ws0 lab kw sp,
       w = ws0 ++ lab ++ kw ++ sp
       /\ forallb is_space ws0 = true /\ line_label lab /\ ci_equal kw PROC
       /\ sp <> [] /\ forallb is_space sp = true.
Proof.
  unfold def_head. cbn [denote].
  intros (w1 & sp & -> & H1 & Hne & Hsp).
  destruct H1 as (w2 & kw & -> & H2 & Hkw).
  destruct H2 as (w3 & lab & -> & H3 & Hlab).
  destruct H3 as (w4 & ws0 & -> & (-> & ->) & Hws0).
  apply denote_lit in Hkw.
  split; [reflexivity|].
  exists ws0, lab, kw, sp. simpl. rewrite <- !app_assoc.
  repeat split; try assumption.
  destruct Hlab as [->|(ds & ws & -> & (Hds & Hds') & Hws & Hws')].
  - now left.
  - right. exists ds, ws. auto.
Qed.

Lemma def_head_intro (ws0 lab kw sp after : str) :
  forallb is_space ws0 = true -> line_label lab -> ci_equal kw PROC ->
  sp <> [] -> forallb is_space sp = true ->
  denote def_head [] (ws0 ++ lab ++ kw ++ sp) after.
Proof.
  intros Hws0 Hlab Hkw Hne Hsp. unfold def_head. cbn [denote].
  exists (ws0 ++ lab ++ kw), sp.
  split; [now rewrite <- !app_assoc|]. split; [|auto].
  exists (ws0 ++ lab), kw.
  split; [now rewrite <- !app_assoc|]. split; [|now apply denote_lit].
  exists ws0, lab. split; [reflexivity|]. split.
  - exists [], ws0. auto.
  - destruct Hlab as [->|(ds & ws & -> & Hds & Hds' & Hws & Hws')].
    + now left.
    + right. exists ds, ws. auto.
Qed.

Lemma def_tail_inv (before w after : str) :
  denote def_tail before w after ->
  forallb is_space (w ++ after) = true.
Proof.
  unfold def_tail. cbn [denote].
  intros (trail & e & -> & Htrail & -> & [->| ->]);
    rewrite !forallb_app, Htrail; reflexivity.
Qed.

Lemma def_tail_intro (before trail : str) :
  forallb is_space trail = true -> denote def_tail before trail [].
Proof.
  intros H. unfold def_tail. cbn [denote].
  exists trail, []. rewrite app_nil_r. auto.
Qed.

Lemma token_inv (before w after : str) :
  denote (Cls is_letter · Star is_alnum) before w after -> name_token w.
Proof.
  cbn [denote]. intros (w1 & rest & -> & (d & -> & Hd) & Hrest).
  now exists d, rest.
Qed.

Lemma token_intro (before tok after : str) :
  name_token tok ->
  denote (Cls is_letter · Star is_alnum) before tok after.
Proof.
  intros (c & rest & -> & Hc & Hrest). cbn [denote].
  exists [c], rest. repeat split; eauto.
Qed.

Lemma name_token_alnum (tok : str) :
  name_token tok -> forallb is_alnum tok = true.
Proof.
  intros (c & rest & -> & Hc & Hrest). simpl.
  apply letter_classes in Hc. destruct Hc as [-> _]. exact Hrest.
Qed.

Lemma spaces_stop_alnum (s : str) :
  forallb is_space s = true -> stops is_alnum s.
Proof.
  destruct s as [|c s]; simpl; [auto|].
  intros H. apply andb_true_iff in H. destruct H as [H _].
  now apply space_classes in H.
Qed.

Lemma captured_span (st st' : mstate) (w : str) :
  suf st = w ++ suf st' -> captured st st' = w.
Proof.
  intros H. unfold captured. rewrite H, length_app.
  replace (length w + length (suf st') - length (suf st')) with (length w)
    by lia.
  rewrite firstn_app, firstn_all, Nat.sub_diag. simpl. apply app_nil_r.
Qed.

Lemma in_exec_group (n : nat) (r : regex) (st st' : mstate) :
  In st' (exec (Group n r) st) ->
  exists w, suf st = w ++ suf st' /\ pre st' = rev w ++ pre st
            /\ denote r (pre st) w (suf st') /\ group n st' = Some w.
Proof.
  simpl. rewrite in_map_iff. intros [m [<- H]].
  destruct (exec_sound _ _ _ H) as [w (Hs & Hp & Hd)].
  exists w. simpl. repeat split; try assumption.
  unfold group. simpl. rewrite Nat.eqb_refl.
  now rewrite (captured_span _ _ _ Hs).
Qed.

(** What every result of the definition pattern looks like. *)
Lemma def_re_exec (t : str) (m : mstate) :
  In m (exec def_re (MState [] t [])) ->
  exists ws0 lab kw sp tok trail,
    parses t ws0 lab kw sp tok trail
    /\ forallb is_space trail = true /\ group 2 m = Some tok.
Proof.
  unfold def_re. intros H.
  change (In m (flat_map (exec def_tail)
                   (flat_map (exec (Group 2 (Cls is_letter · Star is_alnum)))
                      (exec def_head (MState [] t []))))) in H.
  apply in_flat_map in H. destruct H as [m2 [H Htail]].
  apply in_flat_map in H. destruct H as [m1 [Hhead Htok]].
  destruct (exec_sound _ _ _ Hhead) as [wh (Hs1 & Hp1 & Hd1)].
  destruct (in_exec_group _ _ _ _ Htok) as [tok (Hs2 & Hp2 & Hd2 & Hg)].
  destruct (exec_sound _ _ _ Htail) as [wt (Hs3 & Hp3 & Hd3)].
  simpl in Hs1.
  apply def_head_inv in Hd1.
  destruct Hd1 as (_ & ws0 & lab & kw & sp & -> & Hws0 & Hlab & Hkw & Hne & Hsp).
  apply token_inv in Hd2. apply def_tail_inv in Hd3.
  rewrite <- Hs3 in Hd3.
  exists ws0, lab, kw, sp, tok, (suf m2).
  split; [|split].
  - unfold parses. rewrite Hs1, Hs2, <- !app_assoc.
    repeat split; try assumption. now apply spaces_stop_alnum.
  - exact Hd3.
  - unfold group. rewrite (@exec_no_group def_tail eq_refl _ _ Htail).
    exact Hg.
Qed.

Lemma def_re_intro (ws0 lab kw sp tok trail : str) :
  forallb is_space ws0 = true -> line_label lab -> ci_equal kw PROC ->
  sp <> [] -> forallb is_space sp = true -> name_token tok ->
  forallb is_space trail = true ->
  denote def_re [] (ws0 ++ lab ++ kw ++ sp ++ tok ++ trail) [].
Proof.
  intros Hws0 Hlab Hkw Hne Hsp Htok Htrail. unfold def_re.
  change (exists w1 w2,
             ws0 ++ lab ++ kw ++ sp ++ tok ++ trail = w1 ++ w2
             /\ denote (def_head · Group 2 (Cls is_letter · Star is_alnum))
                       [] w1 (w2 ++ [])
             /\ denote def_tail (rev w1 ++ []) w2 []).
  exists (ws0 ++ lab ++ kw ++ sp ++ tok), trail.
  split; [now rewrite <- !app_assoc|]. split; [|now apply def_tail_intro].
  change (exists w1 w2,
             ws0 ++ lab ++ kw ++ sp ++ tok = w1 ++ w2
             /\ denote def_head [] w1 (w2 ++ trail ++ [])
             /\ denote (Cls is_letter · Star is_alnum)
                       (rev w1 ++ []) w2 (trail ++ [])).
  exists (ws0 ++ lab ++ kw ++ sp), tok.
  split; [now rewrite <- !app_assoc|].
  split; [now apply def_head_intro | now apply token_intro].
Qed.

(* ------------------------------------------------------------------ *)
(** * A text is cut into the parts of a definition line in one way *)

Lemma app_same_length (A : Type) (a a' b b' : list A) :
  length a = length a' -> a ++ b = a' ++ b' -> a = a' /\ b = b'.
Proof.
  revert a'. induction a as [|x a IH]; intros [|x' a'] Hl E;
    simpl in *; try discriminate.
  - auto.
  - injection E as -> E. injection Hl as Hl.
    destruct (IH _ Hl E) as [-> ->]. auto.
Qed.

Lemma keyword_stops (kw rest : str) :
  ci_equal kw PROC ->
  stops is_space (kw ++ rest) /\ stops is_digit (kw ++ rest).
Proof.
  intros H. destruct (keyword_shape H) as (p & k & -> & Hp & _). simpl.
  apply letter_classes in Hp. destruct Hp as [Ha Hd].
  apply alnum_classes in Ha. tauto.
Qed.

Lemma token_stops (tok rest : str) :
  name_token tok -> stops is_space (tok ++ rest).
Proof.
  intros (c & r & -> & Hc & _). simpl.
  apply letter_classes in Hc. destruct Hc as [Ha _].
  apply alnum_classes in Ha. tauto.
Qed.

Lemma label_keyword_stops (lab kw rest : str) :
  line_label lab -> ci_equal kw PROC -> stops is_space (lab ++ kw ++ rest).
Proof.
  intros [->|(ds & ws & -> & Hds & Hds' & _)] Hkw.
  - simpl. now destruct (keyword_stops rest Hkw).
  - destruct ds as [|d ds]; [contradiction|]. simpl in *.
    apply andb_true_iff in Hds'. destruct Hds' as [Hd _].
    now apply digit_classes in Hd.
Qed.

Lemma spaces_stop_digit (ws rest : str) :
  ws <> [] -> forallb is_space ws = true -> stops is_digit (ws ++ rest).
Proof.
  destruct ws as [|c ws]; [contradiction|]. simpl. intros _ H.
  apply andb_true_iff in H. destruct H as [H _].
  now apply space_classes in H.
Qed.

Lemma label_unique (lab lab' kw kw' x x' : str) :
  line_label lab -> line_label lab' ->
  ci_equal kw PROC -> ci_equal kw' PROC ->
  lab ++ kw ++ x = lab' ++ kw' ++ x' -> kw ++ x = kw' ++ x'.
Proof.
  intros Hlab Hlab' Hkw Hkw' E.
  assert (Hclash : forall (ds ws k k' y y' : str),
             ds <> [] -> forallb is_digit ds = true -> ci_equal k PROC ->
             k ++ y = (ds ++ ws) ++ k' ++ y' -> False).
  { intros ds ws k k' y y' Hne Hds Hk Ek.
    destruct (keyword_shape Hk) as (p & r & -> & Hp & _).
    destruct ds as [|d ds]; [contradiction|]. simpl in *.
    injection Ek as -> _.
    apply andb_true_iff in Hds. destruct Hds as [Hd _].
    apply letter_classes in Hp. destruct Hp as [_ Hp]. congruence. }
  destruct Hlab as [->|(ds & ws & -> & Hds & Hds' & Hws & Hws')];
    destruct Hlab' as [->|(ds' & ws' & -> & Hds1 & Hds1' & Hws1 & Hws1')].
  - exact E.
  - exact (False_ind _ (Hclash ds' ws' kw kw' x x' Hds1 Hds1' Hkw E)).
  - symmetry in E.
    exact (False_ind _ (Hclash ds ws kw' kw x' x Hds Hds' Hkw' E)).
  - rewrite <- !app_assoc in E.
    destruct (@span_unique is_digit ds ds' (ws ++ kw ++ x) (ws' ++ kw' ++ x'))
      as [_ E1]; auto using spaces_stop_digit.
    destruct (@span_unique is_space ws ws' (kw ++ x) (kw' ++ x'))
      as [_ E2]; auto; eapply keyword_stops; eassumption.
Qed.

Lemma parses_unique (t ws0 lab kw sp tok rest ws0' lab' kw' sp' tok' rest' : str) :
  parses t ws0 lab kw sp tok rest ->
  parses t ws0' lab' kw' sp' tok' rest' ->
  tok = tok' /\ rest = rest'.
Proof.
  intros (E & Hws0 & Hlab & Hkw & Hne & Hsp & Htok & Hrest)
         (E' & Hws0' & Hlab' & Hkw' & Hne' & Hsp' & Htok' & Hrest').
  rewrite E in E'.
  destruct (@span_unique is_space ws0 ws0' _ _ Hws0 Hws0'
              (label_keyword_stops (sp ++ tok ++ rest) Hlab Hkw)
              (label_keyword_stops (sp' ++ tok' ++ rest') Hlab' Hkw') E')
    as [_ E1].
  apply label_unique in E1; try assumption.
  assert (Hl : length kw = length kw').
  { destruct (keyword_shape Hkw) as (? & ? & _ & _ & ->).
    destruct (keyword_shape Hkw') as (? & ? & _ & _ & ->). reflexivity. }
  destruct (@app_same_length _ kw kw' (sp ++ tok ++ rest)
              (sp' ++ tok' ++ rest') Hl E1) as [_ E2].
  destruct (@span_unique is_space sp sp' (tok ++ rest) (tok' ++ rest')
              Hsp Hsp' (token_stops rest Htok) (token_stops rest' Htok') E2)
    as [_ E3].
  apply (@span_unique is_alnum tok tok' rest rest');
    auto using name_token_alnum.
Qed.

(* ------------------------------------------------------------------ *)
(** * The scanner's verdict on one line *)

Lemma hd_error_In (A : Type) (l : list A) (x : A) :
  hd_error l = Some x -> In x l.
Proof. destruct l; simpl; [discriminate | intros [= ->]; now left]. Qed.

Lemma parses_stripped (line ws0 lab kw sp tok rest : str) :
  parses (strip line) ws0 lab kw sp tok rest -> ws0 = [].
Proof.
  intros (E & Hws0 & _). pose proof (strip_stops line) as Hst.
  rewrite E in Hst. destruct ws0 as [|c ws0]; [reflexivity|].
  simpl in *. apply andb_true_iff in Hws0. destruct Hws0. congruence.
Qed.

Lemma definition_line_parses (t name : str) :
  definition_line t name <->
  exists lab kw sp tok trail,
    parses t [] lab kw sp tok trail
    /\ forallb is_space trail = true /\ name = upper tok.
Proof.
  unfold definition_line, parses. split.
  - intros (lab & kw & sp & tok & trail & E & Hlab & Hkw & Hne & Hsp & Htok
            & Htrail & Hname).
    exists lab, kw, sp, tok, trail.
    repeat split; auto using spaces_stop_alnum.
  - intros (lab & kw & sp & tok & trail
            & (E & _ & Hlab & Hkw & Hne & Hsp & Htok & _) & Htrail & Hname).
    exists lab, kw, sp, tok, trail. repeat split; assumption.
Qed.

(** The scanner names [name] on a line exactly when the trimmed line is
    a definition line for [name]. *)
Lemma scan_line_iff (line name : str) :
  scan_line line = Some name <-> definition_line (strip line) name.
Proof.
  rewrite definition_line_parses. unfold scan_line. split.
  - destruct (re_match def_re (strip line)) as [m|] eqn:Em; [|discriminate].
    apply hd_error_In in Em.
    destruct (def_re_exec _ _ Em)
      as (ws0 & lab & kw & sp & tok & trail & Hp & Htrail & Hg).
    rewrite Hg. intros [= <-].
    pose proof (parses_stripped _ Hp) as ->.
    exists lab, kw, sp, tok, trail. auto.
  - intros (lab & kw & sp & tok & trail & Hp & Htrail & ->).
    assert (Hd : denote def_re [] (strip line) []).
    { destruct Hp as (-> & _ & Hlab & Hkw & Hne & Hsp & Htok & _).
      now apply (@def_re_intro []). }
    apply re_match_complete in Hd. destruct Hd as [m Hm].
    rewrite app_nil_r in Hm. rewrite Hm.
    apply hd_error_In in Hm.
    destruct (def_re_exec _ _ Hm)
      as (ws0' & lab' & kw' & sp' & tok' & trail' & Hp' & _ & Hg).
    rewrite Hg. destruct (parses_unique Hp Hp') as [-> _]. reflexivity.
Qed.

(* ------------------------------------------------------------------ *)
(** * The definition index *)

Lemma in_enumerate (A : Type) (l : list A) (i : nat) (x : A) :
  In (i, x) (enumerate l) <-> nth_error l i = Some x.
Proof.
  unfold enumerate.
  enough (H : forall a, In (i, x) (combine (seq a (length l)) l)
                        <-> a <= i /\ nth_error l (i - a) = Some x).
  { rewrite H, Nat.sub_0_r. split; [tauto | split; [lia | assumption]]. }
  induction l as [|y l IH]; intros a; simpl.
  - split; [contradiction|]. intros [_ H]. destruct (i - a); discriminate.
  - rewrite IH. split.
    + intros [[= <- <-]|[Hle Hn]].
      * rewrite Nat.sub_diag. auto.
      * split; [lia|]. replace (i - a) with (S (i - S a)) by lia. exact Hn.
    + intros [Hle Hn]. destruct (i - a) as [|k] eqn:Ek.
      * left. injection Hn as ->. f_equal. lia.
      * right. split; [lia|]. replace (i - S a) with k by lia. exact Hn.
Qed.

Lemma recorded_append (n : str) (j : nat) (d : dict (list nat))
  (name : str) (i : nat) :
  recorded (dict_append n j d) name i
  <-> recorded d name i \/ (name = n /\ i = j).
Proof.
  unfold recorded, dict_append.
  destruct (dict_get n d) as [l|] eqn:En;
    destruct (str_eqb name n) eqn:E;
    try (apply str_eqb_eq in E; subst name).
  - split.
    + intros (l' & Hl' & Hin). rewrite dict_get_set_same in Hl'.
      injection Hl' as <-. apply in_app_or in Hin.
      destruct Hin as [Hin|[<-|[]]]; [left; eauto | right; auto].
    + intros [(l' & Hl' & Hin)|[_ ->]]; exists (l ++ [j]);
        rewrite dict_get_set_same; (split; [reflexivity|]);
        apply in_or_app.
      * left. congruence.
      * right. now left.
  - split.
    + intros (l' & Hl' & Hin). rewrite dict_get_set, E in Hl'. left. eauto.
    + intros [(l' & Hl' & Hin)|[-> _]].
      * exists l'. rewrite dict_get_set, E. auto.
      * rewrite str_eqb_refl in E. discriminate.
  - split.
    + intros (l' & Hl' & Hin). rewrite dict_get_set_same in Hl'.
      injection Hl' as <-. destruct Hin as [<-|[]]. right. auto.
    + intros [(l' & Hl' & Hin)|[_ ->]]; [congruence|].
      exists [j]. rewrite dict_get_set_same. split; [reflexivity | now left].
  - split.
    + intros (l' & Hl' & Hin). rewrite dict_get_set, E in Hl'. left. eauto.
    + intros [(l' & Hl' & Hin)|[-> _]].
      * exists l'. rewrite dict_get_set, E. auto.
      * rewrite str_eqb_refl in E. discriminate.
Qed.

Lemma recorded_scan (ils : list (nat * str)) (d : dict (list nat))
  (name : str) (i : nat) :
  recorded (fold_left scan_step ils d) name i
  <-> recorded d name i
      \/ exists line, In (i, line) ils /\ scan_line line = Some name.
Proof.
  revert d. induction ils as [|[j l] ils IH]; intros d; simpl.
  - split; [auto | intros [H|(line & [] & _)]; exact H].
  - rewrite IH. unfold scan_step. simpl.
    destruct (scan_line l) as [n|] eqn:El.
    + rewrite recorded_append. split.
      * intros [[H|[-> ->]]|(line & Hin & Hs)]; eauto.
        all: try (right; exists l; now auto).
      * intros [H|(line & [[= <- <-]|Hin] & Hs)]; eauto.
        all: try (left; right; split; congruence).
    + split.
      * intros [H|(line & Hin & Hs)]; eauto.
      * intros [H|(line & [[= <- <-]|Hin] & Hs)]; eauto.
        all: try congruence.
Qed.

Lemma recorded_empty (name : str) (i : nat) : ~ recorded [] name i.
Proof. intros (l & H & _). discriminate. Qed.

(** The definition index holds [i] for [name] exactly for the lines the
    scanner names [name] on. *)
Lemma find_all_procedures_recorded (content name : str) (i : nat) :
  recorded (find_all_procedures content) name i
  <-> exists line, nth_error (split_lines content) i = Some line
                   /\ scan_line line = Some name.
Proof.
  unfold find_all_procedures. rewrite recorded_scan. split.
  - intros [H|(line & Hin & Hs)].
    + now apply recorded_empty in H.
    + exists line. split; [now apply in_enumerate | exact Hs].
  - intros (line & Hn & Hs). right. exists line.
    split; [now apply in_enumerate | exact Hs].
Qed.

Lemma extra_token_not_definition (t name : str) :
  extra_token_line t -> ~ definition_line t name.
Proof.
  intros (lab & kw & sp & tok & gap & c & extra & E & Hlab & Hkw & Hne & Hsp
          & Htok & Hgne & Hgap & Hc) Hdef.
  apply definition_line_parses in Hdef.
  destruct Hdef as (lab' & kw' & sp' & tok' & trail' & Hp' & Htrail & _).
  assert (Hp : parses t [] lab kw sp tok (gap ++ c :: extra)).
  { unfold parses. repeat split; try assumption.
    destruct gap as [|g gap]; [contradiction|]. simpl in *.
    apply andb_true_iff in Hgap. destruct Hgap as [Hg _].
    now apply space_classes in Hg. }
  destruct (parses_unique Hp Hp') as [_ <-].
  rewrite forallb_app in Htrail. simpl in Htrail. rewrite Hc in Htrail.
  rewrite andb_false_r in Htrail. discriminate.
Qed.

(* ------------------------------------------------------------------ *)
(** * The definition scanner decides definition lines *)

(** C6: [find_all_procedures] records line [i] for [name] exactly when
    the trimmed content of line [i] is an optional numeric label, the
    keyword PROC in any case, one or more whitespace characters, a name
    token (a letter followed by letters and digits) whose upper-case form
    is [name], and trailing whitespace only; a line that carries anything
    more after the name is recorded for no name. *)
Theorem definition_scanner_exact (content : str) :
  (forall name i,
     recorded (find_all_procedures content) name i
     <-> exists line, nth_error (split_lines content) i = Some line
                      /\ definition_line (strip line) name)
  /\ (forall i line name,
        nth_error (split_lines content) i = Some line ->
        extra_token_line (strip line) ->
        ~ recorded (find_all_procedures content) name i).
Proof.
  assert (H : forall name i,
             recorded (find_all_procedures content) name i
             <-> exists line, nth_error (split_lines content) i = Some line
                              /\ definition_line (strip line) name).
  { intros name i. rewrite find_all_procedures_recorded.
    split; intros (line & Hn & Hs); exists line;
      (split; [assumption | now apply scan_line_iff]). }
  split; [exact H|].
  intros i line name Hn Hextra Hrec. apply H in Hrec.
  destruct Hrec as (line' & Hn' & Hdef).
  rewrite Hn in Hn'. injection Hn' as <-.
  now apply (extra_token_not_definition Hextra) in Hdef.
Qed.

(** The scanner's own verdicts on the lines used as examples. *)
Example scan_examples :
  find_all_procedures
    (txt "10 PROC ALPHA" ++ NL ++ txt "20 proc beta  " ++ NL
     ++ txt "# PROC ALPHA" ++ NL ++ txt "  PROC alpha" ++ NL
     ++ txt "10PROC X" ++ NL ++ txt "PROC A B")
  = [(txt "ALPHA", [0; 3]); (txt "BETA", [1])].
Proof. vm_compute. reflexivity. Qed.

(* ------------------------------------------------------------------ *)
(** * The scanner's pattern against the rewriter's *)

Lemma scanner_line_matches_proc_re (line name : str) :
  scan_line line = Some name ->
  exists m, re_match (proc_re name) line = Some m.
Proof.
  intros H. apply scan_line_iff in H.
  destruct H as (lab & kw & sp & tok & trail & E & Hlab & Hkw & Hne & Hsp
                 & Htok & Htrail & ->).
  destruct (strip_decompose line) as (a & b & Hline & Ha & Hb).
  rewrite E in Hline.
  assert (Hd : exists ds ws2, lab = ds ++ ws2
                              /\ forallb is_digit ds = true
                              /\ forallb is_space ws2 = true).
  { destruct Hlab as [->|(ds & ws & -> & _ & Hds & _ & Hws)].
    - now exists [], [].
    - now exists ds, ws. }
  destruct Hd as (ds & ws2 & -> & Hds & Hws2).
  assert (Hden : denote (proc_re (upper tok)) []
                   (a ++ ds ++ ws2 ++ kw ++ sp ++ tok ++ (trail ++ b)) []).
  { apply proc_re_intro; try assumption.
    - apply ci_equal_upper.
    - now rewrite forallb_app, Htrail, Hb. }
  apply re_match_complete in Hden.
  rewrite app_nil_r in Hden.
  replace (a ++ ds ++ ws2 ++ kw ++ sp ++ tok ++ trail ++ b) with line in Hden.
  - exact Hden.
  - rewrite Hline, <- !app_assoc. reflexivity.
Qed.

(** C1: the definition pattern of the rewriter reads the label as
    optional whitespace, optional digits, optional whitespace, where the
    scanner and the definition test of the call scanner read digits
    followed by whitespace.  On a text whose first line runs the label
    into the keyword, the scanner records the second line only and the
    definition test of the call scanner refuses the first line for
    [ALPHA]; the definition branch of the rewriter takes it, with the
    label and the keyword in its first group. *)
Example rewriter_label_differs :
  let content := txt "10PROC ALPHA" ++ NL ++ txt "PROC ALPHA" in
  let line := txt "10PROC ALPHA" in
  nth_error (split_lines content) 0 = Some line
  /\ find_all_procedures content = [(txt "ALPHA", [1])]
  /\ generate_short_names (dict_keys (find_all_procedures content))
     = [(txt "ALPHA", txt "A")]
  /\ scan_line line = None
  /\ re_match (def_name_re (txt "ALPHA")) (strip line) = None
  /\ option_map (fun m => (group_text 1 m, group_text 2 m))
                (re_match (proc_re (txt "ALPHA")) line)
     = Some (txt "10PROC ", [])
  /\ shorten content = txt "10PROC A" ++ NL ++ txt "PROC A".
Proof. vm_compute. repeat split. Qed.

(* ------------------------------------------------------------------ *)
(** * The call index *)

Lemma calls_get (f : str -> list nat) (names : list str)
  (d : dict (list nat)) (name : str) :
  dict_get name (fold_left (fun calls n => dict_set n (f n) calls) names d)
  = if mem name names then Some (f name) else dict_get name d.
Proof.
  revert d. induction names as [|n names IH]; intros d; simpl.
  - reflexivity.
  - rewrite IH, dict_get_set.
    destruct (str_eqb name n) eqn:E; simpl.
    + apply str_eqb_eq in E. subst n. now destruct (mem name names).
    + reflexivity.
Qed.

Lemma in_call_lines (lines : list str) (name : str) (i : nat) :
  In i (call_lines lines name)
  <-> exists line, nth_error lines i = Some line
                   /\ is_call_line name line = true.
Proof.
  unfold call_lines. rewrite in_map_iff. split.
  - intros ([j line] & <- & Hin). apply filter_In in Hin.
    destruct Hin as [Hin Hc]. exists line.
    split; [now apply in_enumerate | exact Hc].
  - intros (line & Hn & Hc). exists (i, line).
    split; [reflexivity|]. apply filter_In.
    split; [now apply in_enumerate | exact Hc].
Qed.

Lemma find_procedure_calls_recorded (content : str) (proc_names : list str)
  (name : str) (i : nat) :
  recorded (find_procedure_calls content proc_names) name i
  <-> In name proc_names
      /\ exists line, nth_error (split_lines content) i = Some line
                      /\ is_call_line name line = true.
Proof.
  unfold recorded, find_procedure_calls. rewrite <- in_call_lines.
  rewrite <- mem_In. split.
  - intros (l & Hl & Hin). rewrite calls_get in Hl.
    destruct (mem name proc_names); [|discriminate].
    injection Hl as <-. auto.
  - intros [Hm Hin]. exists (call_lines (split_lines content) name).
    rewrite calls_get, Hm. auto.
Qed.

(** ** The definition pattern for one name *)

Lemma ci_equal_alnum (occ name : str) :
  ci_equal occ name -> forallb is_alnum name = true ->
  forallb is_alnum occ = true /\ upper occ = upper name.
Proof.
  induction 1 as [|d c occ name Hd Hrest IH]; simpl; intros Ha.
  - auto.
  - apply andb_true_iff in Ha. destruct Ha as [Hc Ha].
    destruct (IH Ha) as [-> ->].
    rewrite (ci_eqb_is_alnum _ _ Hd), Hc, (ci_eqb_upper _ _ Hd Hc). auto.
Qed.

Lemma ci_equal_procedure_name (occ name : str) :
  procedure_name name -> ci_equal occ name ->
  name_token occ /\ upper occ = name.
Proof.
  intros [Htok Hup] Hci.
  destruct (ci_equal_alnum Hci (name_token_alnum Htok)) as [Ha Hu].
  split; [|congruence].
  destruct Htok as (c & rest & -> & Hc & Hrest).
  inversion Hci as [|d c' occ' rest' Hd Hci']; subst.
  exists d, occ'. simpl in Ha. apply andb_true_iff in Ha.
  rewrite (ci_eqb_is_letter _ _ Hd). tauto.
Qed.

Lemma def_name_re_inv (name before w after : str) :
  denote (def_name_re name) before w after ->
  exists ws0 lab kw sp occ trail,
    w ++ after = ws0 ++ lab ++ kw ++ sp ++ occ ++ trail
    /\ forallb is_space ws0 = true /\ line_label lab /\ ci_equal kw PROC
    /\ sp <> [] /\ forallb is_space sp = true
    /\ ci_equal occ name /\ forallb is_space trail = true.
Proof.
  unfold def_name_re. cbn [denote].
  intros (w1 & wt & -> & (wh & occ & -> & Hh & Hocc) & Ht).
  apply def_head_inv in Hh.
  destruct Hh as (_ & ws0 & lab & kw & sp & -> & Hws0 & Hlab & Hkw & Hne & Hsp).
  apply denote_lit in Hocc. apply def_tail_inv in Ht.
  exists ws0, lab, kw, sp, occ, (wt ++ after).
  rewrite <- !app_assoc. repeat split; assumption.
Qed.

Lemma def_name_re_intro (name lab kw sp occ trail : str) :
  line_label lab -> ci_equal kw PROC ->
  sp <> [] -> forallb is_space sp = true ->
  ci_equal occ name -> forallb is_space trail = true ->
  denote (def_name_re name) [] (lab ++ kw ++ sp ++ occ ++ trail) [].
Proof.
  intros Hlab Hkw Hne Hsp Hocc Htrail. unfold def_name_re. cbn [denote].
  exists (lab ++ kw ++ sp ++ occ), trail.
  split; [now rewrite <- !app_assoc|]. split; [|now apply def_tail_intro].
  exists (lab ++ kw ++ sp), occ.
  split; [now rewrite <- !app_assoc|]. split; [|now apply denote_lit].
  now apply (@def_head_intro []).
Qed.

(** On a trimmed line the call scanner's definition test for a known
    name is the specification's definition line. *)
Lemma def_name_match_iff (line name : str) :
  procedure_name name ->
  is_some (re_match (def_name_re name) (strip line)) = true
  <-> definition_line (strip line) name.
Proof.
  intros Hname. split.
  - destruct (re_match (def_name_re name) (strip line)) as [m|] eqn:Em;
      [intros _ | discriminate].
    destruct (re_match_sound _ _ Em) as [w [Hw Hd]].
    apply def_name_re_inv in Hd. rewrite <- Hw in Hd.
    destruct Hd as (ws0 & lab & kw & sp & occ & trail & E & Hws0 & Hlab & Hkw
                    & Hne & Hsp & Hocc & Htrail).
    destruct (ci_equal_procedure_name Hname Hocc) as [Htok Hup].
    assert (ws0 = []) as ->.
    { apply (@parses_stripped line ws0 lab kw sp occ trail).
      unfold parses. repeat split; auto using spaces_stop_alnum. }
    exists lab, kw, sp, occ, trail. repeat split; auto.
  - intros (lab & kw & sp & tok & trail & E & Hlab & Hkw & Hne & Hsp & Htok
            & Htrail & ->).
    assert (Hd : denote (def_name_re (upper tok)) [] (strip line) []).
    { rewrite E. apply def_name_re_intro; auto using ci_equal_upper. }
    apply re_match_complete in Hd. destruct Hd as [m Hm].
    rewrite app_nil_r in Hm. now rewrite Hm.
Qed.

(** ** The call pattern at a colon *)

Lemma word_before_cursor (occ rest : str) :
  occ <> [] -> forallb is_alnum occ = true ->
  word_at (rev occ ++ rest) = true.
Proof.
  intros Hne Ha. destruct (rev occ) as [|c r] eqn:Er.
  - apply (f_equal (@rev ascii)) in Er. rewrite rev_involutive in Er.
    contradiction.
  - simpl. assert (Hin : In c occ).
    { apply in_rev. rewrite Er. now left. }
    rewrite forallb_forall in Ha. apply Ha in Hin.
    now apply alnum_classes in Hin.
Qed.

Lemma call_re_at_colon (name a occ b : str) :
  procedure_name name -> ci_equal occ name -> word_at (rev a) = false ->
  denote (call_re name) (rev a) occ (":"%char :: b).
Proof.
  intros Hname Hocc Ha.
  destruct (ci_equal_procedure_name Hname Hocc) as [Htok _].
  pose proof (name_token_alnum Htok) as Halnum.
  assert (Hne : occ <> []).
  { destruct Htok as (c & r & -> & _). discriminate. }
  unfold call_re. cbn [denote].
  exists occ, []. split; [now rewrite app_nil_r|]. split.
  - exists occ, []. split; [now rewrite app_nil_r|]. split.
    + exists [], occ. split; [reflexivity|]. split.
      * split; [reflexivity|]. rewrite Ha.
        destruct Htok as (c & r & -> & Hc & _). simpl.
        apply letter_classes in Hc. destruct Hc as [Hc _].
        apply alnum_classes in Hc. now destruct Hc as (_ & -> & _).
      * now apply denote_lit.
    + split; [reflexivity|]. simpl.
      now rewrite word_before_cursor.
  - split; [reflexivity|].
    exists [":"%char], b. split; [reflexivity|]. left.
    exists [], [":"%char]. split; [reflexivity|]. split; [reflexivity|].
    exists ":"%char. auto.
Qed.

(** ** What follows the name where the call pattern matches *)

Lemma call_re_inv (name before w after : str) :
  denote (call_re name) before w after ->
  ci_equal w name
  /\ xorb (word_at before) (word_at (w ++ after)) = true
  /\ xorb (word_at (rev w ++ before)) (word_at after) = true
  /\ (after = [] \/ exists c rest, after = c :: rest /\ is_sep c = true).
Proof.
  unfold call_re. cbn [denote].
  intros (w1 & w2 & -> & H1 & -> & u & rest & -> & Hahead).
  destruct H1 as (w3 & w4 & -> & H3 & -> & Hb2).
  destruct H3 as (w5 & occ & -> & (-> & Hb1) & Hocc).
  apply denote_lit in Hocc. simpl in *.
  rewrite !app_nil_r in *.
  repeat split; try assumption.
  destruct Hahead as [(ws & w6 & -> & Hws & c & -> & Hc)|(-> & [->| ->])].
  - right. destruct ws as [|s ws]; simpl in *.
    + eauto.
    + apply andb_true_iff in Hws. destruct Hws as [Hs _].
      exists s, ((ws ++ [c]) ++ rest). split; [reflexivity|].
      unfold is_sep. rewrite Hs. apply orb_true_r.
  - now left.
  - right. exists newline, []. auto.
Qed.

(** Every line in a call list holds the name, in any case, between word
    boundaries and followed by the end of the line or by one of the
    characters of the class: a colon, a dollar sign or whitespace. *)
Lemma call_line_context (name line : str) :
  is_call_line name line = true ->
  exists a occ b,
    line = a ++ occ ++ b /\ ci_equal occ name
    /\ xorb (word_at (rev a)) (word_at (occ ++ b)) = true
    /\ xorb (word_at (rev occ ++ rev a)) (word_at b) = true
    /\ (b = [] \/ exists c rest, b = c :: rest /\ is_sep c = true).
Proof.
  unfold is_call_line. intros H.
  apply andb_true_iff in H. destruct H as [H _].
  apply andb_true_iff in H. destruct H as [_ H].
  apply search_from_sound in H.
  destruct H as (a & occ & b & -> & Hd).
  apply call_re_inv in Hd. rewrite app_nil_r in Hd.
  exists a, occ, b. tauto.
Qed.

(* ------------------------------------------------------------------ *)
(** * Definitions are not calls; a name before a colon is *)

(** C7: for a known procedure name, a line whose trimmed content is a
    definition line for that name is not recorded in the name's call
    list; a line that passes the comment filter, is not such a definition
    line and holds the name as a whole word with a colon right after it
    is recorded. *)
Theorem definition_excluded_colon_call_recorded
  (content : str) (proc_names : list str) (name : str) (i : nat) (line : str) :
  In name proc_names -> procedure_name name ->
  nth_error (split_lines content) i = Some line ->
  (definition_line (strip line) name ->
   ~ recorded (find_procedure_calls content proc_names) name i)
  /\ (is_code_line line = true ->
      ~ definition_line (strip line) name ->
      followed_by_colon line name ->
      recorded (find_procedure_calls content proc_names) name i).
Proof.
  intros Hin Hname Hn. split.
  - intros Hdef Hrec. apply find_procedure_calls_recorded in Hrec.
    destruct Hrec as (_ & line' & Hn' & Hc).
    rewrite Hn in Hn'. injection Hn' as <-.
    apply (def_name_match_iff line Hname) in Hdef.
    unfold is_call_line in Hc. rewrite Hdef in Hc.
    rewrite andb_false_r in Hc. discriminate.
  - intros Hcode Hnodef (a & occ & b & -> & Hocc & Ha).
    apply find_procedure_calls_recorded. split; [assumption|].
    eexists. split; [exact Hn|].
    unfold is_call_line. rewrite Hcode. simpl.
    apply andb_true_iff. split.
    + unfold re_search. apply search_from_complete.
      rewrite app_nil_r. now apply call_re_at_colon.
    + destruct (is_some _) eqn:E; [|reflexivity].
      now apply (def_name_match_iff _ Hname) in E.
Qed.

Lemma alpha_is_procedure_name : procedure_name (txt "ALPHA").
Proof.
  split; [|reflexivity]. exists "A"%char, (txt "LPHA"). repeat split.
Qed.

Lemma definition_excluded_colon_call_recorded_witness :
  let content := txt "10 PROC ALPHA" ++ NL ++ txt "GOSUB ALPHA: PRINT 1" in
  recorded (find_procedure_calls content [txt "ALPHA"]) (txt "ALPHA") 1
  /\ ~ recorded (find_procedure_calls content [txt "ALPHA"]) (txt "ALPHA") 0.
Proof.
  intros content. split.
  - apply (@definition_excluded_colon_call_recorded
             content [txt "ALPHA"] (txt "ALPHA") 1
             (txt "GOSUB ALPHA: PRINT 1")).
    + now left.
    + exact alpha_is_procedure_name.
    + reflexivity.
    + reflexivity.
    + intros H. apply (def_name_match_iff _ alpha_is_procedure_name) in H.
      vm_compute in H. discriminate.
    + exists (txt "GOSUB "), (txt "ALPHA"), (txt " PRINT 1").
      repeat split. repeat constructor.
  - apply (@definition_excluded_colon_call_recorded
             content [txt "ALPHA"] (txt "ALPHA") 0 (txt "10 PROC ALPHA")).
    + now left.
    + exact alpha_is_procedure_name.
    + reflexivity.
    + apply scan_line_iff. vm_compute. reflexivity.
Defined.

(** Scenario 4 of the specification, and the definition line next to
    it. *)
Example colon_call_scenario :
  find_procedure_calls
    (txt "10 PROC ALPHA" ++ NL ++ txt "GOSUB ALPHA: PRINT 1"
     ++ NL ++ txt "# ALPHA:" ++ NL ++ txt "ALPHABET = 5")
    [txt "ALPHA"]
  = [(txt "ALPHA", [1])].
Proof. vm_compute. reflexivity. Qed.

(* ------------------------------------------------------------------ *)
(** * Two inputs on which the code goes wrong *)

(** C4: the class [[:$\s]] of the call pattern holds the dollar sign as
    an ordinary character, so a name followed by a dollar sign is
    recorded as a call; a longer identifier that starts with the name is
    not. *)
Example call_scanner_accepts_dollar :
  find_procedure_calls
    (txt "PROC ALPHA" ++ NL ++ txt "PRINT ALPHA$" ++ NL ++ txt "ALPHABET = 5")
    [txt "ALPHA"]
  = [(txt "ALPHA", [1])].
Proof. vm_compute. reflexivity. Qed.

(** C2: when the keyword itself is a procedure name that comes later in
    the allocator's order than another name, the substitution for the
    keyword rewrites the definition line of the other name, and the
    rescan of the output has lost that definition. *)
Example rescan_loses_definition :
  let content := txt "PROC A1" ++ NL ++ txt "PROC PROC" in
  find_all_procedures content = [(txt "A1", [0]); (txt "PROC", [1])]
  /\ generate_short_names (dict_keys (find_all_procedures content))
     = [(txt "A1", txt "A"); (txt "PROC", txt "P")]
  /\ shorten content = txt "P A" ++ NL ++ txt "PROC P"
  /\ find_all_procedures (shorten content) = [(txt "P", [1])].
Proof. vm_compute. repeat split. Qed.

(* ------------------------------------------------------------------ *)
(** * The scenarios of the specification *)

(** Scenarios 1 and 6: both names get their first letter; the shorter
    name is served first. *)
Example scenario_alpha_beta :
  let content := txt "10 PROC ALPHA" ++ NL ++ txt "20 PROC BETA" ++ NL in
  generate_short_names (dict_keys (find_all_procedures content))
  = [(txt "BETA", txt "B"); (txt "ALPHA", txt "A")]
  /\ shorten content = txt "10 PROC A" ++ NL ++ txt "20 PROC B" ++ NL.
Proof. vm_compute. split; reflexivity. Qed.

(** Scenario 2: the shorter of two names with the same first letter
    claims it. *)
Example scenario_apple_apricot :
  generate_short_names [txt "APRICOT"; txt "APPLE"]
  = [(txt "APPLE", txt "A"); (txt "APRICOT", txt "AP")].
Proof. vm_compute. reflexivity. Qed.

(** Scenarios 3 and 5: a comment line is neither a definition nor a call,
    and a longer identifier is not a call. *)
Example scenario_comment_and_prefix :
  let content := txt "# PROC ALPHA" ++ NL ++ txt "ALPHABET = 5" in
  find_all_procedures content = []
  /\ find_procedure_calls content [txt "ALPHA"] = [(txt "ALPHA", [])].
Proof. vm_compute. split; reflexivity. Qed.

(* ------------------------------------------------------------------ *)
(** * More about dictionaries *)

Lemma dict_get_none_keys (V : Type) (k : str) (d : dict V) :
  dict_get k d = None <-> ~ In k (dict_keys d).
Proof.
  induction d as [|[k' v] d IH]; simpl.
  - tauto.
  - destruct (str_eqb k k') eqn:E.
    + apply str_eqb_eq in E. subst k'. split; [discriminate | tauto].
    + rewrite IH. split.
      * intros H [->|Hin]; [|tauto]. rewrite str_eqb_refl in E. discriminate.
      * tauto.
Qed.

Lemma dict_get_some_keys (V : Type) (k : str) (d : dict V) :
  In k (dict_keys d) <-> exists v, dict_get k d = Some v.
Proof.
  destruct (dict_get k d) as [v|] eqn:E.
  - split; [eauto|]. intros _.
    destruct (in_dec (list_eq_dec ascii_dec) k (dict_keys d)) as [H|H];
      [assumption|].
    apply dict_get_none_keys in H. congruence.
  - apply dict_get_none_keys in E. split; [contradiction|].
    intros [v Hv]. discriminate.
Qed.

Lemma dict_keys_set (V : Type) (k : str) (v : V) (d : dict V) :
  dict_keys (dict_set k v d)
  = if is_some (dict_get k d) then dict_keys d else dict_keys d ++ [k].
Proof.
  induction d as [|[k' v'] d IH]; simpl.
  - reflexivity.
  - destruct (str_eqb k k') eqn:E; simpl.
    + reflexivity.
    + rewrite IH. now destruct (is_some (dict_get k d)).
Qed.

Lemma dict_set_nodup (V : Type) (k : str) (v : V) (d : dict V) :
  NoDup (dict_keys d) -> NoDup (dict_keys (dict_set k v d)).
Proof.
  intros H. rewrite dict_keys_set.
  destruct (dict_get k d) eqn:E; simpl; [assumption|].
  apply dict_get_none_keys in E.
  apply NoDup_app; [assumption | repeat constructor; simpl; tauto |].
  intros x Hx [<-|[]]. contradiction.
Qed.

(* ------------------------------------------------------------------ *)
(** * The shape of the definition index *)

Lemma upper_char_is_letter (c : ascii) :
  is_letter (upper_char c) = is_letter c.
Proof. each_char c. Qed.

Lemma upper_char_is_alnum (c : ascii) :
  is_alnum (upper_char c) = is_alnum c.
Proof. each_char c. Qed.

Lemma upper_char_idem (c : ascii) : upper_char (upper_char c) = upper_char c.
Proof. each_char c. Qed.

Lemma upper_idem (s : str) : upper (upper s) = upper s.
Proof.
  unfold upper. rewrite map_map. apply map_ext. apply upper_char_idem.
Qed.

Lemma upper_token_is_procedure_name (tok : str) :
  name_token tok -> procedure_name (upper tok).
Proof.
  intros (c & rest & -> & Hc & Hrest). split; [|apply upper_idem].
  exists (upper_char c), (upper rest). simpl. repeat split.
  - now rewrite upper_char_is_letter.
  - clear Hc. induction rest as [|x rest IH]; simpl in *; [reflexivity|].
    apply andb_true_iff in Hrest. destruct Hrest as [Hx Hrest].
    now rewrite upper_char_is_alnum, Hx, IH.
Qed.

Lemma scan_line_procedure_name (line name : str) :
  scan_line line = Some name -> procedure_name name.
Proof.
  intros H. apply scan_line_iff in H.
  destruct H as (lab & kw & sp & tok & trail & _ & _ & _ & _ & _ & Htok & _
                 & ->).
  now apply upper_token_is_procedure_name.
Qed.

Lemma sorted_snoc (l : list nat) (i : nat) :
  StronglySorted lt l -> Forall (fun j => j < i) l ->
  StronglySorted lt (l ++ [i]).
Proof.
  induction l as [|x l IH]; simpl; intros Hs Hb.
  - repeat constructor.
  - inversion Hs as [|? ? Hl Hx]; subst.
    inversion Hb as [|? ? Hxi Hli]; subst.
    constructor; [now apply IH|].
    apply Forall_app. split; [assumption | now repeat constructor].
Qed.

Lemma index_shape_weaken (a b : nat) (d : dict (list nat)) :
  a <= b -> index_shape a d -> index_shape b d.
Proof.
  intros Hab [Hnd H]. split; [assumption|].
  intros name l Hl. destruct (H _ _ Hl) as (H1 & H2 & H3 & H4).
  refine (conj H1 (conj H2 (conj H3 _))).
  eapply Forall_impl; [|exact H4]. simpl. intros; lia.
Qed.

Lemma index_shape_append (i : nat) (d : dict (list nat)) (name : str) :
  procedure_name name -> index_shape i d ->
  index_shape (S i) (dict_append name i d).
Proof.
  intros Hname [Hnd H]. unfold dict_append. split.
  - destruct (dict_get name d); now apply dict_set_nodup.
  - intros k l Hl.
    destruct (dict_get name d) as [l0|] eqn:E;
      rewrite dict_get_set in Hl;
      destruct (str_eqb k name) eqn:Ek.
    + apply str_eqb_eq in Ek. subst k. injection Hl as <-.
      destruct (H _ _ E) as (_ & _ & Hs & Hb).
      split; [assumption|]. split; [|split].
      * destruct l0; discriminate.
      * now apply sorted_snoc.
      * apply Forall_app. split.
        -- eapply Forall_impl; [|exact Hb]. simpl. intros; lia.
        -- repeat constructor.
    + destruct (H _ _ Hl) as (H1 & H2 & H3 & H4).
      refine (conj H1 (conj H2 (conj H3 _))).
      eapply Forall_impl; [|exact H4]. simpl. intros; lia.
    + apply str_eqb_eq in Ek. subst k. injection Hl as <-.
      split; [assumption|]. split; [discriminate|].
      split; repeat constructor.
    + destruct (H _ _ Hl) as (H1 & H2 & H3 & H4).
      refine (conj H1 (conj H2 (conj H3 _))).
      eapply Forall_impl; [|exact H4]. simpl. intros; lia.
Qed.

Lemma scan_shape (lines : list str) (a : nat) (d : dict (list nat)) :
  index_shape a d ->
  index_shape (a + length lines)
    (fold_left scan_step (combine (seq a (length lines)) lines) d).
Proof.
  revert a d. induction lines as [|line lines IH]; intros a d Hd; simpl.
  - now rewrite Nat.add_0_r.
  - replace (a + S (length lines)) with (S a + length lines) by lia.
    apply IH. unfold scan_step. simpl.
    destruct (scan_line line) as [name|] eqn:E.
    + apply index_shape_append; [|assumption].
      now apply scan_line_procedure_name in E.
    + apply index_shape_weaken with (a := a); [lia | assumption].
Qed.

Lemma find_all_procedures_shape (content : str) :
  index_shape (length (split_lines content)) (find_all_procedures content).
Proof.
  unfold find_all_procedures, enumerate.
  apply (@scan_shape (split_lines content) 0 []).
  split; [constructor | discriminate].
Qed.

(** X1: the keys of the definition index are pairwise distinct, and each
    is a letter followed by letters and digits, in upper case. *)
Theorem definition_index_keys (content : str) :
  NoDup (dict_keys (find_all_procedures content))
  /\ Forall procedure_name (dict_keys (find_all_procedures content)).
Proof.
  destruct (find_all_procedures_shape content) as [Hnd H].
  split; [assumption|]. apply Forall_forall. intros name Hin.
  apply dict_get_some_keys in Hin. destruct Hin as [l Hl].
  now destruct (H _ _ Hl).
Qed.

(** X2: every list of the definition index is non-empty, strictly
    increasing, and holds indices of lines of the text only. *)
Theorem definition_index_lists (content name : str) (l : list nat) :
  dict_get name (find_all_procedures content) = Some l ->
  l <> [] /\ StronglySorted lt l
  /\ Forall (fun i => i < length (split_lines content)) l.
Proof.
  intros Hl. destruct (find_all_procedures_shape content) as [_ H].
  destruct (H _ _ Hl) as (_ & H2 & H3 & H4). auto.
Qed.

Lemma definition_index_lists_witness :
  let content := txt "PROC A" ++ NL ++ txt "X" ++ NL ++ txt "proc a" in
  dict_get (txt "A") (find_all_procedures content) = Some [0; 2]
  /\ [0; 2] <> [] /\ StronglySorted lt [0; 2]
  /\ Forall (fun i => i < length (split_lines content)) [0; 2].
Proof.
  intros content. split; [reflexivity|].
  apply (@definition_index_lists content (txt "A") [0; 2]). reflexivity.
Defined.

(* ------------------------------------------------------------------ *)
(** * The shape of the call index *)

Lemma filter_enumerate_sorted (A : Type) (f : nat * A -> bool) (l : list A)
  (a : nat) :
  StronglySorted lt (map fst (filter f (combine (seq a (length l)) l)))
  /\ Forall (fun i => a <= i < a + length l)
            (map fst (filter f (combine (seq a (length l)) l))).
Proof.
  revert a. induction l as [|x l IH]; intros a; simpl.
  - split; constructor.
  - destruct (IH (S a)) as [Hs Hb].
    assert (Hb' : Forall (fun i => a <= i < a + S (length l))
                    (map fst (filter f (combine (seq (S a) (length l)) l)))).
    { eapply Forall_impl; [|exact Hb]. simpl. intros; lia. }
    destruct (f (a, x)); simpl.
    + split.
      * constructor; [assumption|].
        eapply Forall_impl; [|exact Hb]. simpl. intros; lia.
      * constructor; [lia | assumption].
    + auto.
Qed.

Lemma call_lines_sorted (lines : list str) (name : str) :
  StronglySorted lt (call_lines lines name)
  /\ Forall (fun i => i < length lines) (call_lines lines name).
Proof.
  unfold call_lines, enumerate.
  destruct (filter_enumerate_sorted
              (fun il => is_call_line name (snd il)) lines 0) as [Hs Hb].
  split; [assumption|].
  eapply Forall_impl; [|exact Hb]. simpl. intros; lia.
Qed.

Lemma find_procedure_calls_get (content : str) (proc_names : list str)
  (name : str) :
  dict_get name (find_procedure_calls content proc_names)
  = if mem name proc_names
    then Some (call_lines (split_lines content) name) else None.
Proof. unfold find_procedure_calls. now rewrite calls_get. Qed.

(** X3: the call index has an entry, possibly empty, for every name it
    was asked about and for no other name; every entry is strictly
    increasing and holds indices of lines of the text only. *)
Theorem call_index_entries (content : str) (proc_names : list str)
  (name : str) :
  (In name proc_names
   <-> exists l, dict_get name (find_procedure_calls content proc_names)
                 = Some l)
  /\ (forall l,
        dict_get name (find_procedure_calls content proc_names) = Some l ->
        StronglySorted lt l
        /\ Forall (fun i => i < length (split_lines content)) l).
Proof.
  rewrite find_procedure_calls_get, <- mem_In.
  destruct (mem name proc_names); split.
  - split; eauto.
  - intros l [= <-]. apply call_lines_sorted.
  - split; [discriminate | intros [l Hl]; discriminate].
  - discriminate.
Qed.

Lemma is_sep_cases (c : ascii) :
  is_sep c = true -> c = ":"%char \/ c = "$"%char \/ is_space c = true.
Proof.
  unfold is_sep. intros H.
  apply orb_true_iff in H. destruct H as [H|H]; [|auto].
  apply orb_true_iff in H. destruct H as [H|H];
    apply Ascii.eqb_eq in H; auto.
Qed.

(** X4: a line recorded as a call of [name] is neither blank nor a
    comment, does not match the definition pattern for [name], and holds
    [name] in some case between word boundaries, followed by the end of
    the line, a colon, a dollar sign or whitespace. *)
Theorem call_index_lines (content : str) (proc_names : list str)
  (name : str) (i : nat) :
  recorded (find_procedure_calls content proc_names) name i ->
  exists line a occ b,
    nth_error (split_lines content) i = Some line
    /\ is_code_line line = true
    /\ re_match (def_name_re name) (strip line) = None
    /\ line = a ++ occ ++ b /\ ci_equal occ name
    /\ xorb (word_at (rev a)) (word_at (occ ++ b)) = true
    /\ xorb (word_at (rev occ ++ rev a)) (word_at b) = true
    /\ (b = []
        \/ exists c rest,
             b = c :: rest
             /\ (c = ":"%char \/ c = "$"%char \/ is_space c = true)).
Proof.
  intros H. apply find_procedure_calls_recorded in H.
  destruct H as (_ & line & Hn & Hc).
  destruct (call_line_context _ _ Hc)
    as (a & occ & b & E & Hocc & Hb1 & Hb2 & Hctx).
  exists line, a, occ, b.
  unfold is_call_line in Hc.
  apply andb_true_iff in Hc. destruct Hc as [Hc Hdef].
  apply andb_true_iff in Hc. destruct Hc as [Hcode _].
  repeat split; try assumption.
  - destruct (re_match (def_name_re name) (strip line)); [discriminate|].
    reflexivity.
  - destruct Hctx as [->|(c & rest & -> & Hsep)]; [now left|].
    right. exists c, rest. split; [reflexivity | now apply is_sep_cases].
Qed.

Lemma call_index_lines_witness :
  exists line a occ b,
    nth_error (split_lines (txt "PROC ALPHA" ++ NL ++ txt "IF X alpha$")) 1
    = Some line
    /\ is_code_line line = true
    /\ re_match (def_name_re (txt "ALPHA")) (strip line) = None
    /\ line = a ++ occ ++ b /\ ci_equal occ (txt "ALPHA")
    /\ xorb (word_at (rev a)) (word_at (occ ++ b)) = true
    /\ xorb (word_at (rev occ ++ rev a)) (word_at b) = true
    /\ (b = []
        \/ exists c rest,
             b = c :: rest
             /\ (c = ":"%char \/ c = "$"%char \/ is_space c = true)).
Proof.
  apply (@call_index_lines (txt "PROC ALPHA" ++ NL ++ txt "IF X alpha$")
           [txt "ALPHA"] (txt "ALPHA") 1).
  exists [1]. split; [reflexivity | now left].
Defined.

(* ------------------------------------------------------------------ *)
(** * More about the allocator *)

Lemma assign_keys (a : alloc) (name : str) :
  dict_keys (short_names (assign a name))
  = if is_some (dict_get name (short_names a))
    then dict_keys (short_names a)
    else dict_keys (short_names a) ++ [name].
Proof.
  unfold assign. destruct (first_free name (used_names a)); simpl;
    apply dict_keys_set.
Qed.

Lemma alloc_keys (l : list str) (a : alloc) :
  NoDup (dict_keys (short_names a) ++ l) ->
  dict_keys (short_names (fold_left assign l a))
  = dict_keys (short_names a) ++ l.
Proof.
  revert a. induction l as [|x l IH]; intros a Hnd; simpl.
  - now rewrite app_nil_r.
  - assert (Hx : dict_get x (short_names a) = None).
    { apply dict_get_none_keys. intros Hin.
      apply NoDup_remove_2 in Hnd. apply Hnd. apply in_or_app. now left. }
    assert (Hk : dict_keys (short_names (assign a x))
                 = dict_keys (short_names a) ++ [x]).
    { rewrite assign_keys, Hx. reflexivity. }
    rewrite IH; rewrite Hk, <- app_assoc; [reflexivity | exact Hnd].
Qed.

(** X5: the mapping lists the names in the order of the allocator's
    pass: shorter names first, names of one length in the order of their
    code points. *)
Theorem short_names_key_order (names : list str) :
  NoDup names ->
  Permutation names (dict_keys (generate_short_names names))
  /\ StronglySorted (fun x y => key_ltb x y = true)
                    (dict_keys (generate_short_names names)).
Proof.
  intros Hnd.
  assert (Hk : dict_keys (generate_short_names names) = sorted_procs names).
  { unfold generate_short_names, alloc_run. rewrite alloc_keys; simpl.
    - reflexivity.
    - eapply Permutation_NoDup; [apply sorted_procs_perm | assumption]. }
  rewrite Hk. split.
  - apply sorted_procs_perm.
  - apply fold_insert_strict; [now rewrite app_nil_r | constructor].
Qed.

Lemma short_names_key_order_witness :
  Permutation [txt "APRICOT"; txt "FIG"; txt "APPLE"]
    (dict_keys (generate_short_names [txt "APRICOT"; txt "FIG"; txt "APPLE"]))
  /\ StronglySorted (fun x y => key_ltb x y = true)
       (dict_keys (generate_short_names
                     [txt "APRICOT"; txt "FIG"; txt "APPLE"])).
Proof.
  apply (@short_names_key_order [txt "APRICOT"; txt "FIG"; txt "APPLE"]).
  repeat constructor; simpl; intuition discriminate.
Defined.

(** X6: the mapping does not depend on the order in which the set of
    names is listed. *)
Theorem short_names_listing_order (names names' : list str) :
  NoDup names -> Permutation names names' ->
  generate_short_names names = generate_short_names names'.
Proof.
  intros Hnd Hp. unfold generate_short_names. do 2 f_equal.
  apply strictly_sorted_unique.
  - apply fold_insert_strict; [now rewrite app_nil_r | constructor].
  - apply fold_insert_strict; [|constructor].
    rewrite app_nil_r. eapply Permutation_NoDup; eassumption.
  - eapply perm_trans; [apply Permutation_sym, sorted_procs_perm|].
    eapply perm_trans; [exact Hp | apply sorted_procs_perm].
Qed.

Lemma short_names_listing_order_witness :
  generate_short_names [txt "APRICOT"; txt "APPLE"]
  = generate_short_names [txt "APPLE"; txt "APRICOT"].
Proof.
  apply (@short_names_listing_order [txt "APRICOT"; txt "APPLE"]).
  - repeat constructor; simpl; intuition discriminate.
  - apply perm_swap.
Defined.

Lemma prefix_first_char (s n : str) :
  s <> [] -> prefix_of s n -> firstn 1 n = firstn 1 s.
Proof.
  intros Hne [t ->]. destruct s; [contradiction | reflexivity].
Qed.

(** X7: a name whose first character no other name starts with is
    shortened to that character. *)
Theorem unshared_first_character (names : list str) (n : str) :
  NoDup names -> Forall (fun m => m <> []) names -> In n names ->
  (forall m, In m names -> m <> n -> firstn 1 m <> firstn 1 n) ->
  dict_get n (generate_short_names names) = Some (firstn 1 n).
Proof.
  intros Hnd Hne Hin Hfirst.
  pose proof (generate_short_names_inv Hnd Hne) as Hinv.
  unfold generate_short_names.
  assert (Hin' : In n (sorted_procs names)).
  { eapply Permutation_in; [apply sorted_procs_perm | assumption]. }
  destruct (inv_total Hinv _ Hin') as [s Hs].
  destruct (inv_prefix Hinv _ Hs) as (_ & Hs0 & Hpre).
  rewrite Hs. f_equal.
  destruct (Nat.le_gt_cases (length s) 1) as [Hle|Hgt].
  - destruct Hpre as [t ->].
    destruct s as [|c [|c' s]]; [contradiction | reflexivity |].
    simpl in Hle. lia.
  - exfalso.
    assert (Hk : 1 <= 1 < length s) by lia.
    destruct (inv_minimal Hinv _ Hs Hk) as (n' & Hn' & Hs').
    destruct (inv_prefix Hinv _ Hs') as (Hin1 & Hne1 & Hpre1).
    apply (Hfirst n').
    + eapply Permutation_in;
        [apply Permutation_sym, sorted_procs_perm | assumption].
    + assumption.
    + rewrite (prefix_first_char Hne1 Hpre1).
      rewrite (prefix_first_char Hs0 Hpre).
      destruct s as [|c s]; [contradiction | reflexivity].
Qed.

Lemma unshared_first_character_witness :
  dict_get (txt "FIG")
    (generate_short_names [txt "APRICOT"; txt "FIG"; txt "APPLE"])
  = Some (txt "F").
Proof.
  apply (@unshared_first_character
           [txt "APRICOT"; txt "FIG"; txt "APPLE"] (txt "FIG")).
  - repeat constructor; simpl; intuition discriminate.
  - repeat constructor; discriminate.
  - simpl. auto.
  - intros m [<-|[<-|[<-|[]]]] Hm; try discriminate. contradiction.
Defined.

(* ------------------------------------------------------------------ *)
(** * Lines the rewriter leaves alone *)

Lemma strip_nil_spaces (line : str) :
  strip line = [] -> forallb is_space line = true.
Proof.
  intros H. destruct (strip_decompose line) as (a & b & E & Ha & Hb).
  rewrite H in E. rewrite E. simpl. now rewrite forallb_app, Ha, Hb.
Qed.

Lemma proc_re_occurs (old line : str) (m : mstate) :
  re_match (proc_re old) line = Some m ->
  exists p occ q kw,
    line = p ++ occ ++ q /\ ci_equal occ old
    /\ ci_equal kw PROC /\ (exists x y, p = x ++ kw ++ y).
Proof.
  intros H. destruct (re_match_sound _ _ H) as (w & E & Hd).
  apply proc_re_inv in Hd.
  destruct Hd as (ws1 & ds & ws2 & kw & sp & occ & trail & -> & _ & _ & _
                  & Hkw & _ & _ & Hocc & _).
  exists (ws1 ++ ds ++ ws2 ++ kw ++ sp), occ, (trail ++ suf m), kw.
  repeat split; try assumption.
  - rewrite E, <- !app_assoc. reflexivity.
  - exists (ws1 ++ ds ++ ws2), sp. now rewrite <- !app_assoc.
Qed.

(** The definition pattern of the rewriter matches no blank line. *)
Lemma proc_re_not_blank (old line : str) :
  strip line = [] -> re_match (proc_re old) line = None.
Proof.
  intros Hblank. apply strip_nil_spaces in Hblank.
  destruct (re_match (proc_re old) line) as [m|] eqn:E; [|reflexivity].
  exfalso. apply proc_re_occurs in E.
  destruct E as (p & occ & q & kw & -> & _ & Hkw & x & y & ->).
  destruct (keyword_shape Hkw) as (c & rest & -> & Hc & _).
  rewrite forallb_forall in Hblank.
  assert (Hsp : is_space c = true).
  { apply Hblank. rewrite !in_app_iff. left. right. left. now left. }
  apply letter_classes in Hc. destruct Hc as [Hc _].
  apply alnum_classes in Hc. destruct Hc as [Hc _]. congruence.
Qed.

Lemma rewrite_line_blank (name_mapping : dict str) (line : str) :
  strip line = [] -> rewrite_line name_mapping line = line.
Proof.
  intros Hblank. unfold rewrite_line.
  enough (H : forall cur, fold_left (rewrite_step line) name_mapping cur = cur)
    by apply H.
  induction name_mapping as [|[old_name new_name] m IH]; intros cur; simpl.
  - reflexivity.
  - rewrite (proc_re_not_blank old_name line Hblank), Hblank. simpl.
    apply IH.
Qed.

(** X8: for every text and every name mapping whose short names are
    plain templates, a line that is empty or holds whitespace only is the
    same line in the rewriter's output. *)
Theorem blank_lines_unchanged (content : str) (name_mapping : dict str)
  (i : nat) (line : str) :
  plain_replacements name_mapping = true ->
  nth_error (split_lines content) i = Some line ->
  strip line = [] ->
  nth_error (rewrite_lines name_mapping (split_lines content)) i = Some line.
Proof.
  intros _ Hi Hblank. unfold rewrite_lines. rewrite nth_error_map, Hi. simpl.
  now rewrite rewrite_line_blank.
Qed.

Lemma blank_lines_unchanged_witness :
  plain_replacements [(txt "A", txt "B")] = true
  /\ nth_error
       (rewrite_lines [(txt "A", txt "B")]
          (split_lines (txt "PROC A" ++ NL ++ txt "   " ++ NL ++ txt "A")))
       1
     = Some (txt "   ").
Proof.
  split; [reflexivity|].
  apply (@blank_lines_unchanged
           (txt "PROC A" ++ NL ++ txt "   " ++ NL ++ txt "A")
           [(txt "A", txt "B")] 1 (txt "   ")); reflexivity.
Defined.

(** ** Lines in which no name occurs *)

Lemma sub_scan_no_match (r : regex) (repl : str) (sf pr : str) :
  (forall a b, sf = a ++ b -> exec r (MState (rev a ++ pr) b []) = []) ->
  sub_scan r repl pr sf 0 = sf.
Proof.
  revert pr. induction sf as [|c sf IH]; intros pr H.
  - pose proof (H [] [] eq_refl) as H0. simpl in H0.
    simpl. unfold first_len. rewrite H0. reflexivity.
  - pose proof (H [] (c :: sf) eq_refl) as H0. simpl in H0.
    simpl. unfold first_len. rewrite H0. simpl. f_equal.
    apply IH. intros a b E.
    specialize (H (c :: a) b). simpl in H. rewrite <- app_assoc in H.
    apply H. now rewrite E.
Qed.

Lemma word_re_occurs (old : str) (st m : mstate) :
  In m (exec (word_re old) st) -> exists occ, suf st = occ ++ suf m
                                             /\ ci_equal occ old.
Proof.
  intros H. destruct (exec_sound _ _ _ H) as (w & Hs & _ & Hd).
  exists w. split; [assumption|].
  unfold word_re in Hd. cbn [denote] in Hd.
  destruct Hd as (w1 & w2 & -> & (w3 & w4 & -> & (-> & _) & Hlit) & -> & _).
  apply denote_lit in Hlit. simpl. now rewrite app_nil_r.
Qed.

Lemma re_sub_no_occurrence (old new cur : str) :
  ~ occurs_ci old cur -> re_sub (word_re old) new cur = cur.
Proof.
  intros Hno. unfold re_sub. apply sub_scan_no_match.
  intros a b E.
  destruct (exec (word_re old) (MState (rev a ++ []) b [])) as [|m ms] eqn:Ex;
    [reflexivity|].
  exfalso. apply Hno.
  destruct (@word_re_occurs old (MState (rev a ++ []) b []) m)
    as (occ & Hs & Hocc); [rewrite Ex; now left|].
  simpl in Hs. exists a, occ, (suf m). split; [congruence | assumption].
Qed.

Lemma rewrite_line_no_occurrence (name_mapping : dict str) (line : str) :
  (forall old_name new_name,
     In (old_name, new_name) name_mapping -> ~ occurs_ci old_name line) ->
  rewrite_line name_mapping line = line.
Proof.
  intros H. unfold rewrite_line.
  enough (Hfold : forall cur,
             cur = line -> fold_left (rewrite_step line) name_mapping cur = line)
    by now apply Hfold.
  induction name_mapping as [|[old_name new_name] m IH]; intros cur ->; simpl.
  - reflexivity.
  - apply IH; [intros o n Hin; apply (H o n); now right|].
    assert (Hno : ~ occurs_ci old_name line)
      by (apply (H old_name new_name); now left).
    destruct (re_match (proc_re old_name) line) as [mt|] eqn:E.
    + exfalso. apply Hno. apply proc_re_occurs in E.
      destruct E as (p & occ & q & _ & -> & Hocc & _).
      now exists p, occ, q.
    + destruct (_ && _); [now apply re_sub_no_occurrence | reflexivity].
Qed.

(** X9: for a name mapping whose short names are plain templates, a
    line in which no name of the mapping occurs, in any case and at any
    place, is the same line in the rewriter's output. *)
Theorem lines_without_names_unchanged (content : str)
  (name_mapping : dict str) (i : nat) (line : str) :
  plain_replacements name_mapping = true ->
  nth_error (split_lines content) i = Some line ->
  (forall old_name new_name,
     In (old_name, new_name) name_mapping -> ~ occurs_ci old_name line) ->
  nth_error (rewrite_lines name_mapping (split_lines content)) i = Some line.
Proof.
  intros _ Hi Hno. unfold rewrite_lines. rewrite nth_error_map, Hi. simpl.
  now rewrite rewrite_line_no_occurrence.
Qed.

Lemma lines_without_names_unchanged_witness :
  plain_replacements [(txt "ALPHA", txt "A")] = true
  /\ nth_error
       (rewrite_lines [(txt "ALPHA", txt "A")]
                      (split_lines (txt "PROC ALPHA" ++ NL ++ txt "END")))
       1
     = Some (txt "END").
Proof.
  split; [reflexivity|].
  apply (@lines_without_names_unchanged
           (txt "PROC ALPHA" ++ NL ++ txt "END")
           [(txt "ALPHA", txt "A")] 1 (txt "END")).
  - reflexivity.
  - reflexivity.
  - intros old_name new_name [[= <- <-]|[]] (a & occ & b & E & Hocc).
    apply ci_equal_length in Hocc.
    apply (f_equal (@length ascii)) in E.
    rewrite !length_app, Hocc in E. simpl in E. lia.
Defined.

(* ------------------------------------------------------------------ *)
(** * What the definition branch writes *)

Lemma no_group_lit (s : str) : no_group (lit s) = true.
Proof. induction s as [|c s IH]; simpl; [reflexivity | exact IH]. Qed.

Lemma split_lines_no_newline (s line : str) :
  In line (split_lines s) -> ~ In newline line.
Proof.
  revert line. induction s as [|c s IH]; intros line; simpl.
  - intros [<-|[]] [].
  - destruct (Ascii.eqb c newline) eqn:E.
    + intros [<-|Hin]; [intros [] | now apply IH].
    + destruct (split_lines s) as [|l ls] eqn:Es.
      * now apply split_lines_not_nil in Es.
      * intros [<-|Hin].
        -- intros [->|Hin].
           ++ rewrite Ascii.eqb_refl in E. discriminate.
           ++ apply (IH l); [now left | assumption].
        -- apply IH. now right.
Qed.

Lemma exec_cat (r1 r2 : regex) (st : mstate) :
  exec (r1 · r2) st = flat_map (exec r2) (exec r1 st).
Proof. reflexivity. Qed.

Lemma in_exec_group_other (n k : nat) (r : regex) (st st' : mstate) :
  In st' (exec (Group n r) st) -> no_group r = true -> k <> n ->
  group k st' = group k st.
Proof.
  simpl. rewrite in_map_iff. intros [m [<- H]] Hng Hk.
  unfold group. simpl. apply Nat.eqb_neq in Hk. rewrite Hk.
  now rewrite (@exec_no_group r Hng _ _ H).
Qed.

(** What every result of the rewriter's definition pattern looks like,
    with the text of its two groups. *)
Lemma proc_re_exec (old line : str) (m : mstate) :
  In m (exec (proc_re old) (MState [] line [])) ->
  exists ws1 ds ws2 kw sp occ g2,
    line = (ws1 ++ ds ++ ws2 ++ kw ++ sp) ++ occ ++ g2 ++ suf m
    /\ group 1 m = Some (ws1 ++ ds ++ ws2 ++ kw ++ sp)
    /\ group 2 m = Some g2
    /\ forallb is_space ws1 = true /\ forallb is_digit ds = true
    /\ forallb is_space ws2 = true /\ ci_equal kw PROC
    /\ sp <> [] /\ forallb is_space sp = true
    /\ ci_equal occ old /\ forallb is_space g2 = true
    /\ (suf m = [] \/ suf m = [newline]).
Proof.
  unfold proc_re. rewrite !exec_cat. intros H.
  apply in_flat_map in H. destruct H as [m4 [H Heol]].
  apply in_flat_map in H. destruct H as [m3 [H Hg2]].
  apply in_flat_map in H. destruct H as [m2 [H Hlit]].
  apply in_flat_map in H. destruct H as [m1 [Hbol Hg1]].
  simpl in Hbol. destruct Hbol as [<-|[]].
  destruct (in_exec_group _ _ _ _ Hg1) as (g1 & Hs1 & _ & Hd1 & Hgrp1).
  destruct (exec_sound _ _ _ Hlit) as (occ & Hs2 & _ & Hd2).
  pose proof (@exec_no_group _ (no_group_lit old) _ _ Hlit) as Hgrp2.
  destruct (in_exec_group _ _ _ _ Hg2) as (g2 & Hs3 & _ & Hd3 & Hgrp3).
  pose proof (@in_exec_group_other 2 1 _ _ _ Hg2 eq_refl) as Hgrp4.
  destruct (exec_sound _ _ _ Heol) as (e & Hs4 & _ & Hd4).
  pose proof (@exec_no_group Eol eq_refl _ _ Heol) as Hgrp5.
  cbn [denote] in Hd1, Hd3, Hd4. destruct Hd4 as [-> Hend].
  apply denote_lit in Hd2.
  destruct Hd1 as (w6 & sp & -> & H6 & Hne & Hsp).
  destruct H6 as (w7 & kw & -> & H7 & Hkw).
  destruct H7 as (w8 & ws2 & -> & H8 & Hws2).
  destruct H8 as (ws1 & ds & -> & Hws1 & Hds).
  apply denote_lit in Hkw.
  exists ws1, ds, ws2, kw, sp, occ, g2.
  simpl in Hs1, Hs4.
  assert (Hg1' : group 1 m = Some (ws1 ++ ds ++ ws2 ++ kw ++ sp)).
  { unfold group in *. rewrite Hgrp5, Hgrp4 by discriminate.
    rewrite Hgrp2, Hgrp1. now rewrite <- !app_assoc. }
  assert (Hg2' : group 2 m = Some g2).
  { unfold group in *. now rewrite Hgrp5. }
  repeat split; try assumption.
  rewrite Hs1, Hs2, Hs3, Hs4, <- !app_assoc. reflexivity.
Qed.

Lemma definition_branch_parts (line name : str) :
  scan_line line = Some name -> ~ In newline line ->
  exists ws1 ds ws2 kw sp occ g2,
    line = (ws1 ++ ds ++ ws2 ++ kw ++ sp) ++ occ ++ g2
    /\ forallb is_space ws1 = true /\ forallb is_digit ds = true
    /\ forallb is_space ws2 = true /\ ci_equal kw PROC
    /\ sp <> [] /\ forallb is_space sp = true
    /\ name_token occ /\ upper occ = name /\ forallb is_space g2 = true
    /\ forall cur new_name,
         rewrite_step line cur (name, new_name)
         = (ws1 ++ ds ++ ws2 ++ kw ++ sp) ++ new_name ++ g2.
Proof.
  intros Hscan Hnl.
  destruct (scanner_line_matches_proc_re _ Hscan) as [m Hm].
  pose proof (hd_error_In _ Hm) as Hin.
  apply proc_re_exec in Hin.
  destruct Hin as (ws1 & ds & ws2 & kw & sp & occ & g2 & E & Hg1 & Hg2 & Hws1
                   & Hds & Hws2 & Hkw & Hne & Hsp & Hocc & Hsg2 & Hend).
  destruct Hend as [Hend|Hend]; rewrite Hend in E.
  - rewrite app_nil_r in E.
    destruct (ci_equal_procedure_name
                (scan_line_procedure_name _ Hscan) Hocc) as [Htok Hup].
    exists ws1, ds, ws2, kw, sp, occ, g2.
    repeat split; try assumption.
    intros cur new_name. unfold rewrite_step. rewrite Hm.
    unfold group_text. now rewrite Hg1, Hg2.
  - exfalso. apply Hnl. rewrite E, !in_app_iff. right. right. right.
    now left.
Qed.

(** X10: on a line of the text that is a definition line for [name] the
    definition branch replaces the name token and nothing else: what
    stands before the token and the whitespace after it are kept,
    whatever earlier passes made of the line. *)
Theorem definition_branch_keeps_context (content line name : str) :
  In line (split_lines content) -> scan_line line = Some name ->
  exists before tok trail,
    line = before ++ tok ++ trail
    /\ name_token tok /\ upper tok = name
    /\ forallb is_space trail = true
    /\ forall cur new_name,
         rewrite_step line cur (name, new_name)
         = before ++ new_name ++ trail.
Proof.
  intros Hline Hscan.
  destruct (definition_branch_parts line Hscan
              (split_lines_no_newline _ _ Hline))
    as (ws1 & ds & ws2 & kw & sp & occ & g2 & E & _ & _ & _ & _ & _ & _
        & Htok & Hup & Hg2 & Hstep).
  exists (ws1 ++ ds ++ ws2 ++ kw ++ sp), occ, g2. auto.
Qed.

Lemma definition_branch_keeps_context_witness :
  exists before tok trail,
    txt " 10 proc Alpha  " = before ++ tok ++ trail
    /\ name_token tok /\ upper tok = txt "ALPHA"
    /\ forallb is_space trail = true
    /\ forall cur new_name,
         rewrite_step (txt " 10 proc Alpha  ") cur (txt "ALPHA", new_name)
         = before ++ new_name ++ trail.
Proof.
  apply (@definition_branch_keeps_context
           (txt "REM" ++ NL ++ txt " 10 proc Alpha  ")
           (txt " 10 proc Alpha  ") (txt "ALPHA")).
  - vm_compute. auto.
  - vm_compute. reflexivity.
Defined.

(** ** The rewritten definition line is a definition line again *)

Lemma lstrip_spaces_app (a rest : str) :
  forallb is_space a = true -> lstrip (a ++ rest) = lstrip rest.
Proof.
  induction a as [|c a IH]; simpl; intros H; [reflexivity|].
  apply andb_true_iff in H. destruct H as [Hc Ha]. rewrite Hc. now apply IH.
Qed.

Lemma lstrip_fixed (s : str) : s <> [] -> stops is_space s -> lstrip s = s.
Proof.
  destruct s as [|c s]; [contradiction|]. simpl. intros _ H. now rewrite H.
Qed.

Lemma rstrip_spaces (b : str) : forallb is_space b = true -> rstrip b = [].
Proof.
  induction b as [|c b IH]; simpl; intros H; [reflexivity|].
  apply andb_true_iff in H. destruct H as [Hc Hb].
  now rewrite (IH Hb), Hc.
Qed.

Lemma rstrip_padded (x b : str) (c : ascii) :
  is_space c = false -> forallb is_space b = true ->
  rstrip (x ++ c :: b) = x ++ [c].
Proof.
  intros Hc Hb. induction x as [|y x IH]; simpl.
  - now rewrite (rstrip_spaces _ Hb), Hc.
  - rewrite IH. destruct (x ++ [c]) eqn:E; [|reflexivity].
    now destruct x.
Qed.

Lemma strip_padded (a x b : str) (c : ascii) :
  forallb is_space a = true -> forallb is_space b = true ->
  stops is_space (x ++ [c]) -> is_space c = false ->
  strip (a ++ (x ++ [c]) ++ b) = x ++ [c].
Proof.
  intros Ha Hb Hst Hc. unfold strip.
  rewrite lstrip_spaces_app by assumption.
  rewrite lstrip_fixed.
  - rewrite <- app_assoc. simpl. now apply rstrip_padded.
  - now destruct x.
  - destruct x; simpl in *; assumption.
Qed.

Lemma token_last (tok : str) :
  name_token tok -> exists x c, tok = x ++ [c] /\ is_space c = false.
Proof.
  intros Htok. pose proof (name_token_alnum Htok) as Ha.
  destruct Htok as (c0 & rest & -> & _ & _).
  destruct (exists_last (l := c0 :: rest)) as (x & c & E); [discriminate|].
  exists x, c. split; [assumption|].
  rewrite E, forallb_app in Ha. apply andb_true_iff in Ha.
  destruct Ha as [_ Ha]. simpl in Ha. rewrite andb_true_r in Ha.
  now apply alnum_classes in Ha.
Qed.

(** A label the rewriter accepted on a line the scanner accepted is a
    label for the scanner. *)
Lemma rewriter_label_is_scanner_label
  (line name ws1 ds ws2 kw sp rest : str) :
  scan_line line = Some name ->
  line = ws1 ++ ds ++ ws2 ++ kw ++ sp ++ rest ->
  forallb is_space ws1 = true -> forallb is_digit ds = true ->
  forallb is_space ws2 = true -> ci_equal kw PROC ->
  ds <> [] -> ws2 <> [].
Proof.
  intros Hscan E Hws1 Hds Hws2 Hkw Hdne ->.
  apply scan_line_iff in Hscan.
  destruct Hscan as (lab & kw' & sp' & tok' & trail' & Es & Hlab & Hkw' & _).
  destruct (strip_decompose line) as (a & b & El & Ha & _).
  rewrite Es, E in El. simpl in El.
  assert (Hd0 : stops is_space (ds ++ kw ++ sp ++ rest)).
  { destruct ds as [|d ds]; [contradiction|]. simpl in *.
    apply andb_true_iff in Hds. destruct Hds as [Hd _].
    now apply digit_classes in Hd. }
  rewrite <- !app_assoc in El.
  destruct (@span_unique is_space ws1 a _ _ Hws1 Ha Hd0
              (label_keyword_stops (sp' ++ tok' ++ trail' ++ b) Hlab Hkw') El)
    as [_ E1].
  destruct (keyword_shape Hkw) as (p & k & -> & Hp & _).
  destruct (keyword_shape Hkw') as (p' & k' & -> & Hp' & _).
  apply letter_classes in Hp, Hp'.
  destruct Hp as [Hpa Hpd], Hp' as [Hpa' Hpd'].
  destruct Hlab as [->|(ds' & ws' & -> & Hdne' & Hds' & Hwne' & Hws')].
  - destruct ds as [|d ds]; [contradiction|]. simpl in *.
    injection E1 as -> _.
    apply andb_true_iff in Hds. destruct Hds. congruence.
  - rewrite <- !app_assoc in E1.
    destruct (@span_unique is_digit ds ds'
                ((p :: k) ++ sp ++ rest)
                (ws' ++ (p' :: k') ++ sp' ++ tok' ++ trail' ++ b))
      as [_ E2]; try assumption.
    + now apply spaces_stop_digit.
    + destruct ws' as [|s ws']; [contradiction|]. simpl in *.
      injection E2 as -> _.
      apply andb_true_iff in Hws'. destruct Hws' as [Hs _].
      apply alnum_classes in Hpa. destruct Hpa. congruence.
Qed.

(** X11: when the definition branch has put a name token [new_name] on a
    definition line of the text, the scanner reads the new line as a
    definition line for [new_name] in upper case. *)
Theorem rewritten_definition_rescans (content line name cur new_name : str) :
  In line (split_lines content) -> scan_line line = Some name ->
  name_token new_name ->
  scan_line (rewrite_step line cur (name, new_name))
  = Some (upper new_name).
Proof.
  intros Hline Hscan Hnew.
  destruct (definition_branch_parts line Hscan
              (split_lines_no_newline _ _ Hline))
    as (ws1 & ds & ws2 & kw & sp & occ & g2 & E & Hws1 & Hds & Hws2 & Hkw
        & Hne & Hsp & _ & _ & Hg2 & Hstep).
  rewrite Hstep. apply scan_line_iff.
  destruct (token_last Hnew) as (x & c & Ex & Hc).
  assert (Hlab : exists ws0 lab,
             ws1 ++ ds ++ ws2 = ws0 ++ lab
             /\ forallb is_space ws0 = true /\ line_label lab).
  { destruct ds as [|d ds].
    - exists (ws1 ++ ws2), []. rewrite app_nil_r, forallb_app, Hws1, Hws2.
      repeat split. now left.
    - exists ws1, ((d :: ds) ++ ws2). repeat split; [assumption|].
      right. exists (d :: ds), ws2. repeat split; try assumption.
      + discriminate.
      + apply (@rewriter_label_is_scanner_label
                 line name ws1 (d :: ds) ws2 kw sp (occ ++ g2));
          try assumption.
        * rewrite E, <- !app_assoc. reflexivity.
        * discriminate. }
  destruct Hlab as (ws0 & lab & El & Hws0 & Hlab).
  assert (Eline : (ws1 ++ ds ++ ws2 ++ kw ++ sp) ++ new_name ++ g2
                  = ws0 ++ ((lab ++ kw ++ sp ++ x) ++ [c]) ++ g2).
  { rewrite Ex.
    replace (ws1 ++ ds ++ ws2 ++ kw ++ sp) with ((ws1 ++ ds ++ ws2) ++ kw ++ sp)
      by now rewrite <- !app_assoc.
    rewrite El, <- !app_assoc. reflexivity. }
  rewrite Eline, strip_padded; try assumption.
  - exists lab, kw, sp, new_name, [].
    rewrite app_nil_r, Ex, <- !app_assoc. repeat split; try assumption.
    now rewrite <- Ex.
  - rewrite <- !app_assoc. now apply label_keyword_stops.
Qed.

Lemma rewritten_definition_rescans_witness :
  scan_line (rewrite_step (txt " 10 proc Alpha  ") (txt "junk")
                          (txt "ALPHA", txt "A"))
  = Some (upper (txt "A")).
Proof.
  apply (@rewritten_definition_rescans
           (txt "REM" ++ NL ++ txt " 10 proc Alpha  ")
           (txt " 10 proc Alpha  ") (txt "ALPHA")).
  - vm_compute. auto.
  - vm_compute. reflexivity.
  - exists "A"%char, []. repeat split.
Defined.

(* ------------------------------------------------------------------ *)
(** * Which lines the definition branch takes *)

(** The parts of a line of a text that the rewriter's definition pattern
    matches for a known name. *)
Lemma proc_re_line_parts (line name : str) :
  ~ In newline line -> procedure_name name ->
  is_some (re_match (proc_re name) line) = true ->
  exists ws1 ds ws2 kw sp tok trail,
    line = ws1 ++ ds ++ ws2 ++ kw ++ sp ++ tok ++ trail
    /\ forallb is_space ws1 = true /\ forallb is_digit ds = true
    /\ forallb is_space ws2 = true /\ ci_equal kw PROC
    /\ sp <> [] /\ forallb is_space sp = true
    /\ name_token tok /\ forallb is_space trail = true
    /\ name = upper tok.
Proof.
  intros Hnl Hname Hm.
  destruct (re_match (proc_re name) line) as [m|] eqn:E; [|discriminate].
  apply re_match_sound in E. destruct E as (w & Hline & Hd).
  apply proc_re_inv in Hd.
  destruct Hd as (ws1 & ds & ws2 & kw & sp & occ & trail & -> & Hws1 & Hds
                  & Hws2 & Hkw & Hne & Hsp & Hocc & Htrail & _ & Hsuf).
  destruct Hsuf as [Hsuf|Hsuf]; rewrite Hsuf in Hline.
  - rewrite app_nil_r in Hline.
    destruct (ci_equal_procedure_name Hname Hocc) as [Htok Hup].
    exists ws1, ds, ws2, kw, sp, occ, trail.
    repeat split; try assumption. now symmetry.
  - exfalso. apply Hnl. rewrite Hline. apply in_or_app. right. now left.
Qed.

(** X20: on a line of a text and for a known procedure name, the
    definition pattern of the rewriter matches exactly when the scanner
    reads the line as a definition line for that name or the line is
    one but for digits that stand directly before the keyword. *)
Theorem rewriter_definition_pattern (content line name : str) :
  In line (split_lines content) -> procedure_name name ->
  (is_some (re_match (proc_re name) line) = true
   <-> scan_line line = Some name \/ unseparated_label_line line name).
Proof.
  intros Hin Hname. split.
  - intros Hm.
    destruct (@proc_re_line_parts line name
                (split_lines_no_newline _ _ Hin) Hname Hm)
      as (ws1 & ds & ws2 & kw & sp & tok & trail & E & Hws1 & Hds & Hws2
          & Hkw & Hne & Hsp & Htok & Htrail & Hup).
    destruct (token_last Htok) as (x & c & Ex & Hc).
    destruct ds as [|d ds].
    + left. apply scan_line_iff.
      assert (El : line = (ws1 ++ ws2) ++ ((kw ++ sp ++ x) ++ [c]) ++ trail).
      { rewrite E, Ex, <- !app_assoc. reflexivity. }
      rewrite El, strip_padded; try assumption.
      * exists [], kw, sp, tok, [].
        rewrite app_nil_r, Ex, <- !app_assoc. simpl.
        repeat split; try assumption; try (now rewrite <- Ex). now left.
      * now rewrite forallb_app, Hws1, Hws2.
      * rewrite <- !app_assoc.
        now destruct (keyword_stops (sp ++ x ++ [c]) Hkw).
    + destruct ws2 as [|w ws2].
      * right. exists ws1, (d :: ds), kw, sp, tok, trail.
        repeat split; try assumption. discriminate.
      * left. apply scan_line_iff.
        assert (Hlab : line_label ((d :: ds) ++ w :: ws2)).
        { right. exists (d :: ds), (w :: ws2).
          repeat split; try assumption; discriminate. }
        assert (El : line = ws1 ++ (((((d :: ds) ++ w :: ws2)
                                      ++ kw ++ sp ++ x) ++ [c])) ++ trail).
        { rewrite E, Ex, <- !app_assoc. reflexivity. }
        rewrite El, strip_padded; try assumption.
        -- exists ((d :: ds) ++ w :: ws2), kw, sp, tok, [].
           rewrite app_nil_r, Ex, <- !app_assoc.
           repeat split; try assumption; now rewrite <- Ex.
        -- rewrite <- !app_assoc.
           change (stops is_space
                     ((d :: ds) ++ (w :: ws2) ++ kw ++ sp ++ x ++ [c])).
           rewrite (app_assoc (d :: ds)).
           now apply label_keyword_stops.
  - intros [Hscan|Hun].
    + destruct (scanner_line_matches_proc_re _ Hscan) as [m ->]. reflexivity.
    + destruct Hun as (ws & ds & kw & sp & tok & trail & -> & Hws & _ & Hds
                       & Hkw & Hne & Hsp & Htok & Htrail & ->).
      destruct (@re_match_complete (proc_re (upper tok))
                  (ws ++ ds ++ [] ++ kw ++ sp ++ tok ++ trail) [])
        as [m Hm].
      * apply proc_re_intro; try assumption; try reflexivity.
        apply ci_equal_upper.
      * rewrite app_nil_r in Hm. simpl in Hm. now rewrite Hm.
Qed.

Lemma rewriter_definition_pattern_witness :
  is_some (re_match (proc_re (txt "ALPHA")) (txt " 10PROC Alpha ")) = true
  <-> scan_line (txt " 10PROC Alpha ") = Some (txt "ALPHA")
      \/ unseparated_label_line (txt " 10PROC Alpha ") (txt "ALPHA").
Proof.
  apply (@rewriter_definition_pattern
           (txt "REM" ++ NL ++ txt " 10PROC Alpha ")).
  - vm_compute. auto.
  - split.
    + exists "A"%char, (txt "LPHA"). repeat split.
    + reflexivity.
Defined.

(* ------------------------------------------------------------------ *)
(** * The pipeline as a whole *)

Lemma dict_in_get (V : Type) (k : str) (v : V) (d : dict V) :
  NoDup (dict_keys d) -> In (k, v) d -> dict_get k d = Some v.
Proof.
  induction d as [|[k' v'] d IH]; simpl; intros Hnd Hin.
  - contradiction.
  - inversion Hnd as [|? ? Hk' Hnd']; subst.
    destruct Hin as [[= -> ->]|Hin].
    + now rewrite str_eqb_refl.
    + destruct (str_eqb k k') eqn:E.
      * apply str_eqb_eq in E. subst k'. exfalso. apply Hk'.
        change (In (fst (k, v)) (map fst d)). now apply in_map.
      * now apply IH.
Qed.

Lemma procedure_name_nonempty (n : str) : procedure_name n -> n <> [].
Proof. intros [(c & rest & -> & _) _]. discriminate. Qed.

Lemma upper_app (a b : str) : upper (a ++ b) = upper a ++ upper b.
Proof. apply map_app. Qed.

Lemma prefix_procedure_name (s n : str) :
  procedure_name n -> s <> [] -> prefix_of s n -> procedure_name s.
Proof.
  intros [Htok Hup] Hne [t ->]. split.
  - destruct Htok as (c & rest & E & Hc & Hrest).
    destruct s as [|c' s]; [contradiction|].
    simpl in E. injection E as <- <-.
    exists c', s. rewrite forallb_app in Hrest.
    apply andb_true_iff in Hrest. tauto.
  - rewrite upper_app in Hup.
    apply app_same_length in Hup; [tauto|].
    unfold upper. apply length_map.
Qed.

(** The names the pipeline hands to the allocator satisfy what the
    allocator needs. *)
Lemma pipeline_names (content : str) :
  NoDup (dict_keys (find_all_procedures content))
  /\ Forall (fun n => n <> []) (dict_keys (find_all_procedures content)).
Proof.
  destruct (find_all_procedures_shape content) as [Hnd H].
  split; [assumption|]. apply Forall_forall. intros n Hin.
  apply dict_get_some_keys in Hin. destruct Hin as [l Hl].
  apply procedure_name_nonempty. now destruct (H _ _ Hl).
Qed.

Lemma pipeline_mapping_keys (content : str) :
  dict_keys (generate_short_names (dict_keys (find_all_procedures content)))
  = sorted_procs (dict_keys (find_all_procedures content)).
Proof.
  destruct (pipeline_names content) as [Hnd _].
  unfold generate_short_names, alloc_run. rewrite alloc_keys; simpl.
  - reflexivity.
  - eapply Permutation_NoDup; [apply sorted_procs_perm | assumption].
Qed.

Lemma pipeline_mapping_entry (content old_name new_name : str) :
  In (old_name, new_name)
     (generate_short_names (dict_keys (find_all_procedures content))) ->
  In old_name (dict_keys (find_all_procedures content))
  /\ new_name <> [] /\ prefix_of new_name old_name.
Proof.
  intros Hin. destruct (pipeline_names content) as [Hnd Hne].
  pose proof (generate_short_names_inv Hnd Hne) as Hinv.
  assert (Hget : dict_get old_name
                   (generate_short_names
                      (dict_keys (find_all_procedures content)))
                 = Some new_name).
  { apply dict_in_get; [|assumption].
    rewrite pipeline_mapping_keys.
    eapply Permutation_NoDup; [apply sorted_procs_perm | assumption]. }
  destruct (inv_prefix Hinv _ Hget) as (H1 & H2 & H3).
  split; [|auto].
  eapply Permutation_in; [apply Permutation_sym, sorted_procs_perm|].
  exact H1.
Qed.

Lemma alnum_not_backslash (c : ascii) :
  is_alnum c = true -> Ascii.eqb backslash c = false.
Proof. each_char c. Qed.

Lemma name_token_plain (tok : str) :
  name_token tok -> plain_template tok = true.
Proof.
  intros Htok. apply name_token_alnum in Htok. unfold plain_template.
  apply negb_true_iff.
  induction tok as [|c tok IH]; cbn [existsb forallb] in *; [reflexivity|].
  apply andb_true_iff in Htok. destruct Htok as [Hc Htok].
  now rewrite (alnum_not_backslash _ Hc), IH.
Qed.

(** The short names the pipeline hands to the rewriter are plain
    templates. *)
Lemma pipeline_mapping_plain (content : str) :
  plain_replacements
    (generate_short_names (dict_keys (find_all_procedures content))) = true.
Proof.
  unfold plain_replacements. apply forallb_forall.
  intros [old_name new_name] Hin. simpl.
  apply pipeline_mapping_entry in Hin. destruct Hin as (Hkey & Hne & Hpre).
  apply dict_get_some_keys in Hkey. destruct Hkey as [l Hl].
  destruct (find_all_procedures_shape content) as [_ Hshape].
  destruct (Hshape _ _ Hl) as (Hname & _).
  apply name_token_plain.
  now destruct (prefix_procedure_name Hname Hne Hpre).
Qed.

Lemma savings_fold (procedures calls : dict (list nat))
  (name_mapping : dict str) :
  (forall old_name new_name,
     In (old_name, new_name) name_mapping ->
     (exists defs, dict_get old_name procedures = Some defs)
     /\ (exists cs, dict_get old_name calls = Some cs)
     /\ length new_name <= length old_name) ->
  forall t, exists t',
    fold_left (savings_step procedures calls) name_mapping (Some t) = Some t'
    /\ (t <= t')%Z.
Proof.
  induction name_mapping as [|[old_name new_name] m IH]; intros H t; simpl.
  - exists t. split; [reflexivity | lia].
  - destruct (H old_name new_name (or_introl eq_refl))
      as ((defs & ->) & (cs & ->) & Hlen).
    destruct (IH (fun o n Hin => H o n (or_intror Hin))
                 (t + (Z.of_nat (length old_name) - Z.of_nat (length new_name))
                      * Z.of_nat (length defs + length cs))%Z)
      as (t' & -> & Ht').
    exists t'. split; [reflexivity|]. nia.
Qed.

(** X12: on every text the statistics are computed without a missing
    key, and the total of saved characters is not negative. *)
Theorem analysis_total_savings (content : str) :
  exists a, analyze content = Some a /\ (0 <= an_savings a)%Z.
Proof.
  unfold analyze.
  destruct (@savings_fold
              (find_all_procedures content)
              (find_procedure_calls content
                 (dict_keys (find_all_procedures content)))
              (generate_short_names (dict_keys (find_all_procedures content))))
    with (t := 0%Z) as (t' & Ht & Hpos).
  - intros old_name new_name Hin.
    apply pipeline_mapping_entry in Hin. destruct Hin as (Hkey & _ & Hpre).
    split; [now apply dict_get_some_keys|].
    split; [|now apply prefix_of_length].
    rewrite find_procedure_calls_get.
    apply mem_In in Hkey. rewrite Hkey. eauto.
  - unfold total_savings. rewrite Ht. eexists. split; [reflexivity|].
    exact Hpos.
Qed.

(** X13: in the pipeline a name has a short name exactly when the text
    defines it; the short name is again a known procedure name, a prefix
    of the name, and shared with no other name. *)
Theorem pipeline_mapping (content : str) :
  let procedures := find_all_procedures content in
  let name_mapping := generate_short_names (dict_keys procedures) in
  (forall name,
     (exists i, recorded procedures name i)
     <-> exists s, dict_get name name_mapping = Some s)
  /\ (forall name s,
        dict_get name name_mapping = Some s ->
        procedure_name s /\ prefix_of s name)
  /\ (forall n1 n2 s,
        dict_get n1 name_mapping = Some s ->
        dict_get n2 name_mapping = Some s -> n1 = n2).
Proof.
  intros procedures name_mapping.
  destruct (pipeline_names content) as [Hnd Hne].
  pose proof (generate_short_names_inv Hnd Hne) as Hinv.
  destruct (find_all_procedures_shape content) as [_ Hshape].
  assert (Hkeys : forall name,
             In name (sorted_procs (dict_keys procedures))
             <-> In name (dict_keys procedures)).
  { intros name. split; apply Permutation_in;
      [apply Permutation_sym|]; apply sorted_procs_perm. }
  split; [|split].
  - intros name. split.
    + intros (i & l & Hl & _). apply (inv_total Hinv), Hkeys.
      apply dict_get_some_keys. eauto.
    + intros (s & Hs). apply (inv_prefix Hinv) in Hs.
      destruct Hs as (Hin & _). apply Hkeys, dict_get_some_keys in Hin.
      destruct Hin as [l Hl].
      destruct (Hshape _ _ Hl) as (_ & Hl0 & _).
      destruct l as [|i l]; [contradiction|].
      exists i, (i :: l). split; [assumption | now left].
  - intros name s Hs. destruct (inv_prefix Hinv _ Hs) as (Hin & Hs0 & Hpre).
    split; [|assumption].
    apply Hkeys, dict_get_some_keys in Hin. destruct Hin as [l Hl].
    destruct (Hshape _ _ Hl) as (Hname & _).
    now apply (prefix_procedure_name Hname).
  - intros n1 n2 s. apply (inv_inj Hinv).
Qed.

(** X21: in the pipeline every short name handed to the rewriter is a
    plain template, so no substitution is refused, and a line of the
    text that is blank or a comment is the same line in the list of
    rewritten lines. *)
Theorem pipeline_keeps_comments_and_blanks (content : str) (i : nat)
  (line : str) :
  nth_error (split_lines content) i = Some line ->
  starts_with_hash (strip line) = true \/ strip line = [] ->
  let name_mapping :=
    generate_short_names (dict_keys (find_all_procedures content)) in
  plain_replacements name_mapping = true
  /\ nth_error (rewrite_lines name_mapping (split_lines content)) i
     = Some line.
Proof.
  intros Hi Hline name_mapping. split.
  - apply pipeline_mapping_plain.
  - unfold rewrite_lines. rewrite nth_error_map, Hi. simpl. f_equal.
    destruct Hline as [Hhash|Hblank].
    + now apply rewrite_line_comment.
    + now apply rewrite_line_blank.
Qed.

Lemma pipeline_keeps_comments_and_blanks_witness :
  let content := txt "PROC ALPHA" ++ NL ++ txt " # ALPHA" ++ NL ++ txt "ALPHA" in
  let name_mapping :=
    generate_short_names (dict_keys (find_all_procedures content)) in
  plain_replacements name_mapping = true
  /\ nth_error (rewrite_lines name_mapping (split_lines content)) 1
     = Some (txt " # ALPHA").
Proof.
  intros content.
  apply (@pipeline_keeps_comments_and_blanks content 1 (txt " # ALPHA")).
  - reflexivity.
  - left. reflexivity.
Defined.

(* ------------------------------------------------------------------ *)
(** * [find_strings.py]: the strings between quotes *)

Lemma is_quote_eq (c : ascii) : is_quote c = true -> c = quote.
Proof. apply Ascii.eqb_eq. Qed.

Lemma not_quote_false (c : ascii) : not_quote c = false -> c = quote.
Proof.
  unfold not_quote. intros H. apply negb_false_iff in H.
  now apply is_quote_eq.
Qed.

(** What every result of the string pattern looks like. *)
Lemma string_re_exec (pr sf : str) (m : mstate) :
  In m (exec string_re (MState pr sf [])) ->
  exists w, sf = quote :: w ++ quote :: suf m
            /\ forallb not_quote w = true /\ group 1 m = Some w.
Proof.
  unfold string_re. rewrite !exec_cat. intros H.
  apply in_flat_map in H. destruct H as [m2 [H Hclose]].
  apply in_flat_map in H. destruct H as [m1 [Hopen Hgrp]].
  destruct (exec_sound _ _ _ Hopen) as (w1 & Hs1 & _ & Hd1).
  destruct (in_exec_group _ _ _ _ Hgrp) as (w & Hs2 & _ & Hd2 & Hg).
  destruct (exec_sound _ _ _ Hclose) as (w3 & Hs3 & _ & Hd3).
  pose proof (@exec_no_group (Cls is_quote) eq_refl _ _ Hclose) as Hg3.
  cbn [denote] in Hd1, Hd2, Hd3.
  destruct Hd1 as (d1 & -> & Hq1). destruct Hd3 as (d3 & -> & Hq3).
  apply is_quote_eq in Hq1, Hq3. subst d1 d3.
  exists w. simpl in Hs1. rewrite Hs1, Hs2, Hs3.
  repeat split; [assumption|]. unfold group in *. now rewrite Hg3.
Qed.

Lemma string_re_matches (pr w rest : str) :
  forallb not_quote w = true ->
  exec string_re (MState pr (quote :: w ++ quote :: rest) []) <> [].
Proof.
  intros Hw.
  assert (Hd : denote string_re pr (quote :: w ++ [quote]) rest).
  { unfold string_re. cbn [denote].
    exists (quote :: w), [quote]. split; [reflexivity|]. split.
    - exists [quote], w. split; [reflexivity|]. split; [|assumption].
      exists quote. auto.
    - exists quote. auto. }
  destruct (exec_complete string_re _ _ _ [] Hd) as [g' Hg'].
  assert (Es : (quote :: w ++ [quote]) ++ rest = quote :: w ++ quote :: rest)
    by (simpl; now rewrite <- app_assoc).
  rewrite Es in Hg'. intros E. now rewrite E in Hg'.
Qed.

Lemma first_result_string (pr w rest : str) :
  forallb not_quote w = true ->
  exists m,
    first_result string_re pr (quote :: w ++ quote :: rest) false = Some m
    /\ group_text 1 m = w
    /\ match_len (quote :: w ++ quote :: rest) m = S (S (length w)).
Proof.
  intros Hw. unfold first_result.
  pose proof (string_re_matches pr w rest Hw) as Hne.
  destruct (exec string_re (MState pr (quote :: w ++ quote :: rest) []))
    as [|m ms] eqn:E; [contradiction|].
  exists m. split; [reflexivity|].
  destruct (@string_re_exec pr (quote :: w ++ quote :: rest) m)
    as (w' & Hs & Hw' & Hg); [rewrite E; now left|].
  injection Hs as Hs.
  destruct (@span_unique not_quote w w' (quote :: rest) (quote :: suf m))
    as [<- Hrest]; try assumption; try reflexivity.
  injection Hrest as Hrest.
  split.
  - unfold group_text. now rewrite Hg.
  - unfold match_len. rewrite <- Hrest.
    cbn [length]. rewrite length_app. cbn [length]. lia.
Qed.

Lemma first_result_none (pr sf : str) :
  (forall w rest, sf = quote :: w ++ quote :: rest -> False) ->
  first_result string_re pr sf false = None.
Proof.
  intros H. unfold first_result.
  destruct (exec string_re (MState pr sf [])) as [|m ms] eqn:E;
    [reflexivity|].
  exfalso.
  destruct (@string_re_exec pr sf m) as (w & Hs & _); [rewrite E; now left|].
  exact (H _ _ Hs).
Qed.

Lemma findall_scan_miss (r : regex) (pr sf : str) :
  first_result r pr sf false = None ->
  findall_scan r pr sf 0
  = match sf with
    | [] => []
    | c :: sf' => findall_scan r (c :: pr) sf' 0
    end.
Proof. intros H. destruct sf; cbn [findall_scan]; rewrite H; reflexivity. Qed.

Lemma findall_scan_hit (r : regex) (pr sf : str) (m : mstate) (k : nat) :
  first_result r pr sf false = Some m -> match_len sf m = S k ->
  findall_scan r pr sf 0
  = group_text 1 m
    :: match sf with
       | [] => []
       | c :: sf' => findall_scan r (c :: pr) sf' k
       end.
Proof.
  intros H Hk. destruct sf as [|c sf].
  - unfold match_len in Hk. simpl in Hk. discriminate.
  - cbn [findall_scan]. rewrite H, Hk. reflexivity.
Qed.

Lemma findall_scan_skip (r : regex) (a b pr : str) :
  findall_scan r pr (a ++ b) (length a) = findall_scan r (rev a ++ pr) b 0.
Proof.
  revert pr. induction a as [|c a IH]; intros pr; simpl.
  - reflexivity.
  - rewrite IH, <- app_assoc. reflexivity.
Qed.

Lemma run_of_not_quotes (s : str) :
  exists w rest, s = w ++ rest /\ forallb not_quote w = true
                 /\ (rest = [] \/ exists rest', rest = quote :: rest').
Proof.
  induction s as [|c s (w & rest & -> & Hw & Hrest)].
  - exists [], []. auto.
  - destruct (not_quote c) eqn:E.
    + exists (c :: w), rest. simpl. rewrite E. auto.
    + apply not_quote_false in E. subst c.
      exists [], (quote :: w ++ rest). eauto.
Qed.

Lemma between_quotes_no_quote (s : str) (pending : option str) :
  forallb not_quote s = true -> between_quotes s pending = [].
Proof.
  revert pending. induction s as [|c s IH]; intros pending H; simpl.
  - reflexivity.
  - simpl in H. apply andb_true_iff in H. destruct H as [Hc Hs].
    unfold not_quote in Hc. apply negb_true_iff in Hc. rewrite Hc.
    destruct pending; now apply IH.
Qed.

Lemma between_quotes_close (w rest acc : str) :
  forallb not_quote w = true ->
  between_quotes (w ++ quote :: rest) (Some acc)
  = (rev acc ++ w) :: between_quotes rest None.
Proof.
  revert acc. induction w as [|c w IH]; intros acc H; simpl.
  - now rewrite app_nil_r.
  - simpl in H. apply andb_true_iff in H. destruct H as [Hc Hw].
    unfold not_quote in Hc. apply negb_true_iff in Hc. rewrite Hc.
    rewrite IH by assumption. simpl. now rewrite <- app_assoc.
Qed.

Lemma findall_between_quotes (n : nat) :
  forall sf pr, length sf <= n ->
  findall_scan string_re pr sf 0 = between_quotes sf None.
Proof.
  induction n as [|n IH]; intros sf pr Hlen.
  - destruct sf; [|simpl in Hlen; lia].
    rewrite findall_scan_miss; [reflexivity|].
    apply first_result_none. intros w rest E. discriminate.
  - destruct sf as [|c sf].
    { rewrite findall_scan_miss; [reflexivity|].
      apply first_result_none. intros w rest E. discriminate. }
    simpl in Hlen. simpl between_quotes.
    destruct (is_quote c) eqn:Ec.
    + apply is_quote_eq in Ec. subst c.
      destruct (run_of_not_quotes sf) as (w & rest & -> & Hw & Hrest).
      destruct Hrest as [->|(rest' & ->)].
      * rewrite app_nil_r in *.
        rewrite findall_scan_miss.
        -- rewrite IH by lia.
           now rewrite !between_quotes_no_quote.
        -- apply first_result_none. intros w' rest E.
           injection E as E.
           assert (Hq : forallb not_quote (w' ++ quote :: rest) = true)
             by now rewrite <- E.
           rewrite forallb_app in Hq. simpl in Hq.
           rewrite andb_false_r in Hq. discriminate.
      * destruct (first_result_string pr w rest' Hw) as (m & Hm & Hg & Hl).
        rewrite (findall_scan_hit _ _ _ Hm Hl), Hg.
        rewrite between_quotes_close by assumption. simpl. f_equal.
        replace (w ++ quote :: rest') with ((w ++ [quote]) ++ rest')
          by now rewrite <- app_assoc.
        replace (S (length w)) with (length (w ++ [quote]))
          by (rewrite length_app; simpl; lia).
        rewrite findall_scan_skip. apply IH.
        rewrite !length_app in Hlen. simpl in Hlen. lia.
    + rewrite findall_scan_miss.
      * apply IH. lia.
      * apply first_result_none. intros w rest E.
        injection E as -> _. vm_compute in Ec. discriminate.
Qed.

Lemma lese_prg_strings_scanner (daten : list Byte.byte) :
  lese_prg_strings daten = between_quotes (prg_text daten) None.
Proof.
  unfold lese_prg_strings, re_findall.
  apply (@findall_between_quotes (length (prg_text daten))). lia.
Qed.

(** X14: [lese_prg_strings] returns the texts between the first and the
    second quote of the decoded bytes, between the third and the fourth,
    and so on; a last quote that is not closed opens no string. *)
Theorem strings_are_between_quotes (daten : list Byte.byte) :
  lese_prg_strings daten = between_quotes (prg_text daten) None.
Proof.
  unfold lese_prg_strings, re_findall.
  apply (@findall_between_quotes (length (prg_text daten))).
  apply Nat.le_refl.
Qed.

Lemma between_quotes_length (t : str) :
  length (between_quotes t None) = count_occ ascii_dec t quote / 2
  /\ forall acc,
       length (between_quotes t (Some acc))
       = (count_occ ascii_dec t quote + 1) / 2.
Proof.
  induction t as [|c t [IHn IHs]]; cbn [between_quotes count_occ].
  - split; reflexivity.
  - destruct (is_quote c) eqn:E.
    + apply is_quote_eq in E. subst c.
      destruct (ascii_dec quote quote) as [_|Hne]; [|contradiction].
      split.
      * rewrite IHs. f_equal. lia.
      * intros acc. cbn [length]. rewrite IHn.
        replace (S (count_occ ascii_dec t quote) + 1)
          with (count_occ ascii_dec t quote + 1 * 2) by lia.
        rewrite Nat.div_add by discriminate. lia.
    + destruct (ascii_dec c quote) as [->|Hne].
      * vm_compute in E. discriminate.
      * split; [exact IHn | intros acc; apply IHs].
Qed.

Lemma decode_byte_quote (b : Byte.byte) :
  decode_byte b = quote <-> b = Byte.x22.
Proof.
  destruct b; vm_compute; split; intros H;
    try reflexivity; discriminate.
Qed.

Lemma count_quotes_decoded (l : list Byte.byte) :
  count_occ ascii_dec (map decode_byte l) quote
  = count_occ Byte.byte_eq_dec l Byte.x22.
Proof.
  induction l as [|b l IH]; simpl; [reflexivity|].
  destruct (ascii_dec (decode_byte b) quote) as [E|E];
    destruct (Byte.byte_eq_dec b Byte.x22) as [Eb|Eb].
  - now rewrite IH.
  - apply decode_byte_quote in E. contradiction.
  - apply decode_byte_quote in Eb. contradiction.
  - exact IH.
Qed.

(** X15: the number of strings found is half the number of quote bytes
    behind the two-byte load address, rounded down; a file of fewer than
    four bytes holds none. *)
Theorem number_of_strings (daten : list Byte.byte) :
  length (lese_prg_strings daten)
  = count_occ Byte.byte_eq_dec (skipn 2 daten) Byte.x22 / 2
  /\ (length daten < 4 -> lese_prg_strings daten = []).
Proof.
  assert (H : length (lese_prg_strings daten)
              = count_occ Byte.byte_eq_dec (skipn 2 daten) Byte.x22 / 2).
  { rewrite lese_prg_strings_scanner.
    destruct (between_quotes_length (prg_text daten)) as [-> _].
    unfold prg_text. now rewrite count_quotes_decoded. }
  split; [exact H|]. intros Hshort.
  pose proof (count_occ_bound Byte.byte_eq_dec Byte.x22 (skipn 2 daten))
    as Hb.
  rewrite length_skipn in Hb.
  assert (Hc : count_occ Byte.byte_eq_dec (skipn 2 daten) Byte.x22 / 2 = 0)
    by (apply Nat.div_small; lia).
  rewrite Hc in H. now destruct (lese_prg_strings daten).
Qed.

Lemma between_quotes_chars (P : ascii -> Prop) (t : str) :
  Forall P t ->
  Forall (Forall (fun c => P c /\ c <> quote)) (between_quotes t None)
  /\ forall acc,
       Forall (fun c => P c /\ c <> quote) acc ->
       Forall (Forall (fun c => P c /\ c <> quote))
              (between_quotes t (Some acc)).
Proof.
  induction t as [|c t IH]; intros Ht; simpl.
  - split; [constructor | intros; constructor].
  - inversion Ht as [|? ? Hc Ht']; subst.
    destruct (IH Ht') as [IHn IHs].
    destruct (is_quote c) eqn:E.
    + split.
      * apply IHs. constructor.
      * intros acc Hacc. constructor; [|assumption].
        now apply Forall_rev.
    + split; [assumption|].
      intros acc Hacc. apply IHs. constructor; [|assumption].
      split; [assumption|]. intros ->. vm_compute in E. discriminate.
Qed.

Lemma decode_byte_decoded (b : Byte.byte) : decoded_char (decode_byte b).
Proof.
  unfold decoded_char.
  destruct b; vm_compute;
    first [left; reflexivity | right; split; discriminate].
Qed.

(** X16: every string found holds only line feeds and printable ASCII
    characters, and no quote. *)
Theorem strings_hold_decoded_characters (daten : list Byte.byte) :
  Forall (Forall (fun c => decoded_char c /\ c <> quote))
         (lese_prg_strings daten).
Proof.
  rewrite lese_prg_strings_scanner.
  apply between_quotes_chars.
  unfold prg_text. apply Forall_forall. intros c Hin.
  apply in_map_iff in Hin. destruct Hin as (b & <- & _).
  apply decode_byte_decoded.
Qed.

(* ------------------------------------------------------------------ *)
(** * [find_strings.py]: counting *)

Lemma count_element_get (zaehler : dict nat) (s k : str) :
  dict_get k (count_element zaehler s)
  = if str_eqb k s
    then Some (match dict_get s zaehler with Some n => n | None => 0 end + 1)
    else dict_get k zaehler.
Proof. unfold count_element. apply dict_get_set. Qed.

Lemma counter_fold_get (strings : list str) (zaehler : dict nat) (k : str) :
  dict_get k (fold_left count_element strings zaehler)
  = match dict_get k zaehler, count_occ (list_eq_dec ascii_dec) strings k with
    | Some n, c => Some (n + c)
    | None, 0 => None
    | None, c => Some c
    end.
Proof.
  revert zaehler. induction strings as [|s strings IH]; intros zaehler.
  - simpl. destruct (dict_get k zaehler); [f_equal; lia | reflexivity].
  - cbn [fold_left count_occ]. rewrite IH, count_element_get.
    destruct (list_eq_dec ascii_dec s k) as [->|Hne].
    + rewrite str_eqb_refl.
      destruct (dict_get k zaehler); f_equal; lia.
    + rewrite str_eqb_neq by congruence. reflexivity.
Qed.

Lemma counter_fold_nodup (strings : list str) (zaehler : dict nat) :
  NoDup (dict_keys zaehler) ->
  NoDup (dict_keys (fold_left count_element strings zaehler)).
Proof.
  revert zaehler. induction strings as [|s strings IH]; intros zaehler H.
  - exact H.
  - simpl. apply IH. unfold count_element. now apply dict_set_nodup.
Qed.

(** X17: [Counter] holds every string of the list once, with the number
    of its occurrences, and nothing else. *)
Theorem counter_counts (strings : list str) :
  NoDup (dict_keys (Counter strings))
  /\ forall s n,
       dict_get s (Counter strings) = Some n
       <-> n = count_occ (list_eq_dec ascii_dec) strings s /\ 0 < n.
Proof.
  split.
  - apply counter_fold_nodup. constructor.
  - intros s n. unfold Counter. rewrite counter_fold_get. simpl.
    destruct (count_occ (list_eq_dec ascii_dec) strings s) as [|c].
    + split; [discriminate | intros [-> H]; lia].
    + split; [intros [= <-]; split; [reflexivity | lia]
             | intros [-> _]; reflexivity].
Qed.

Lemma insert_by_count_perm (x : str * nat) (l : list (str * nat)) :
  Permutation (x :: l) (insert_by_count x l).
Proof.
  induction l as [|y l IH]; simpl.
  - apply Permutation_refl.
  - destruct (snd x <? snd y).
    + eapply perm_trans; [apply perm_swap|]. now apply perm_skip.
    + apply Permutation_refl.
Qed.

Lemma insert_by_count_sorted (x : str * nat) (l : list (str * nat)) :
  StronglySorted (fun a b => snd b <= snd a) l ->
  StronglySorted (fun a b => snd b <= snd a) (insert_by_count x l).
Proof.
  induction l as [|y l IH]; simpl; intros Hs.
  - repeat constructor.
  - inversion Hs as [|? ? Hl Hy]; subst.
    destruct (snd x <? snd y) eqn:E.
    + apply Nat.ltb_lt in E. constructor; [now apply IH|].
      eapply Permutation_Forall; [apply insert_by_count_perm|].
      constructor; [lia | assumption].
    + apply Nat.ltb_ge in E. constructor; [assumption|].
      constructor; [assumption|].
      eapply Forall_impl; [|exact Hy]. simpl. intros; lia.
Qed.

Lemma insert_by_count_filter (c : nat) (x : str * nat)
  (l : list (str * nat)) :
  StronglySorted (fun a b => snd b <= snd a) l ->
  filter (fun p => snd p =? c) (insert_by_count x l)
  = filter (fun p => snd p =? c) (x :: l).
Proof.
  induction l as [|y l IH]; intros Hs; [reflexivity|].
  inversion Hs as [|? ? Hl Hy]; subst.
  cbn [insert_by_count]. destruct (snd x <? snd y) eqn:E; [|reflexivity].
  apply Nat.ltb_lt in E. cbn [filter]. rewrite (IH Hl). cbn [filter].
  destruct (snd x =? c) eqn:Ex; destruct (snd y =? c) eqn:Ey;
    try reflexivity.
  apply Nat.eqb_eq in Ex, Ey. lia.
Qed.

Lemma most_common_sorted (zaehler : dict nat) :
  StronglySorted (fun a b => snd b <= snd a) (most_common zaehler).
Proof.
  induction zaehler as [|x d IH]; simpl; [constructor|].
  now apply insert_by_count_sorted.
Qed.

Lemma most_common_perm (zaehler : dict nat) :
  Permutation zaehler (most_common zaehler).
Proof.
  induction zaehler as [|x d IH]; simpl; [constructor|].
  eapply perm_trans; [apply perm_skip, IH | apply insert_by_count_perm].
Qed.

(** X18: [most_common] lists the entries of the counter by falling
    count, and entries with the same count in the order they have in the
    counter: the order in which the strings were first met. *)
Theorem most_common_order (zaehler : dict nat) :
  Permutation zaehler (most_common zaehler)
  /\ StronglySorted (fun a b => snd b <= snd a) (most_common zaehler)
  /\ forall c,
       filter (fun p => snd p =? c) (most_common zaehler)
       = filter (fun p => snd p =? c) zaehler.
Proof.
  split; [apply most_common_perm|]. split; [apply most_common_sorted|].
  intros c. induction zaehler as [|x d IH]; [reflexivity|].
  cbn [most_common fold_right].
  change (fold_right insert_by_count [] d) with (most_common d).
  rewrite insert_by_count_filter by apply most_common_sorted.
  cbn [filter]. now rewrite IH.
Qed.

(** X19: the pairs [main] prints: each string that was found appears in
    exactly one pair, with the number of times it was found, and no other
    pair is printed. *)
Theorem printed_counts (daten : list Byte.byte) :
  NoDup (map fst (string_counts daten))
  /\ forall s n,
       In (s, n) (string_counts daten)
       <-> n = count_occ (list_eq_dec ascii_dec) (lese_prg_strings daten) s
           /\ 0 < n.
Proof.
  unfold string_counts.
  set (strings := lese_prg_strings daten).
  assert (Hnd : NoDup (dict_keys (Counter strings)))
    by (apply counter_fold_nodup; constructor).
  assert (Hget : forall s n,
             dict_get s (Counter strings) = Some n
             <-> n = count_occ (list_eq_dec ascii_dec) strings s /\ 0 < n).
  { intros s n. unfold Counter. rewrite counter_fold_get. simpl.
    destruct (count_occ (list_eq_dec ascii_dec) strings s) as [|c].
    - split; [discriminate | intros [-> H]; lia].
    - split; [intros [= <-]; split; [reflexivity | lia]
             | intros [-> _]; reflexivity]. }
  split.
  - eapply Permutation_NoDup; [|exact Hnd].
    apply Permutation_map. apply most_common_perm.
  - intros s n. rewrite <- Hget. split.
    + intros Hin. apply dict_in_get; [assumption|].
      eapply Permutation_in;
        [apply Permutation_sym, most_common_perm | assumption].
    + intros Hs. eapply Permutation_in; [apply most_common_perm|].
      clear - Hs. induction (Counter strings) as [|[k v] d IH];
        simpl in *; [discriminate|].
      destruct (str_eqb s k) eqn:E.
      * apply str_eqb_eq in E. subst k. left. congruence.
      * right. now apply IH.
Qed.
